(** * anime-game-chart-maker: the two search proxies and the chart editor

    A shallow embedding of
      - [src/app/api/search/anime/route.ts]  (module [AnimeRoute]),
      - the game proxy stored in the same file (module [GameRoute]),
      - the editor state of [src/app/page.tsx] (module [Editor]),
    followed by the properties established about them. *)

From Stdlib Require Import ZArith NArith Ascii String Lia Bool.
From Stdlib Require DecimalString.
From stdpp Require Import base option list.

Set Default Proof Using "Type".
Local Open Scope list_scope.

(** ** JavaScript strings

    A JavaScript string is a sequence of UTF-16 code units.  Literals of the
    source are all ASCII and are written with [lit]. *)

Module JS.

Definition char := N.
Definition str := list char.

Definition lit (s : string) : str :=
  List.map N_of_ascii (list_ascii_of_string s).

(** The double quote U+0022 and the line feed U+000A. *)
Definition dq : char := 34%N.
Definition lf : char := 10%N.

(** ECMAScript [WhiteSpace] and [LineTerminator] code points, all of which
    are single code units: TAB, LF, VT, FF, CR, SP, NBSP, U+1680,
    U+2000..U+200A, U+2028, U+2029, U+202F, U+205F, U+3000, U+FEFF. *)
Definition is_white_space (c : char) : bool :=
  ((9 <=? c) && (c <=? 13) || (c =? 32) || (c =? 160) || (c =? 5760)
   || (8192 <=? c) && (c <=? 8202) || (c =? 8232) || (c =? 8233)
   || (c =? 8239) || (c =? 8287) || (c =? 12288) || (c =? 65279))%N.

(** [String.prototype.trimStart], [trimEnd] and [trim]. *)
Fixpoint trimStart (s : str) : str :=
  match s with
  | c :: s' => if is_white_space c then trimStart s' else s
  | [] => []
  end.

Definition trimEnd (s : str) : str := rev (trimStart (rev s)).

Definition trim (s : str) : str := trimEnd (trimStart s).

(** Truthiness of a string: every string but the empty one. *)
Definition truthy (s : str) : bool :=
  match s with [] => false | _ :: _ => true end.

(** [a || b] where [a] is a string or [undefined]/[null]. *)
Definition or_str (a : option str) (b : str) : str :=
  match a with
  | Some s => if truthy s then s else b
  | None => b
  end.

(** [a || b] where both sides may be [undefined]; the empty string on the
    right is kept as it is (it is the value of the expression). *)
Definition or_opt (a b : option str) : option str :=
  match a with
  | Some s => if truthy s then Some s else b
  | None => b
  end.

(** [s.replace] with the global pattern of one double quote and the empty
    replacement: every double quote is dropped. *)
Fixpoint strip_quotes (s : str) : str :=
  match s with
  | c :: s' => if (c =? dq)%N then strip_quotes s' else c :: strip_quotes s'
  | [] => []
  end.

(** [s.startsWith(p)]. *)
Fixpoint startsWith (s p : str) : bool :=
  match p, s with
  | [], _ => true
  | _ :: _, [] => false
  | a :: p', c :: s' => (c =? a)%N && startsWith s' p'
  end.

(** [String(n)] for an integral number below 1e21 in magnitude: its decimal
    numeral. *)
Definition String_of_int (n : Z) : str :=
  lit (DecimalString.NilZero.string_of_int (Z.to_int n)).

End JS.

Import JS.

(** Lines of a template literal, joined by line feeds. *)
Fixpoint join_lf (ls : list str) : str :=
  match ls with
  | [] => []
  | [l] => l
  | l :: ls' => l ++ lf :: join_lf ls'
  end.

(** ** HTTP: what a handler sends upstream and what it answers *)

Module Http.

(** A URL with its query parameters kept apart ([url.searchParams]). *)
Record Url := { base : str; searchParams : list (str * str) }.

(** [JsonGraphQL query search] stands for the text
    [JSON.stringify({ query, variables: { search } })]. *)
Inductive RequestBody :=
  | NoBody
  | PlainText (s : str)
  | JsonGraphQL (query search : str).

Record Request := {
  url : Url;
  method : str;
  headers : list (str * str);
  body : RequestBody
}.

(** The upstream's answer to a [fetch]: [resp.ok], [await resp.text()] and
    [await resp.json()] at the type the handler asserts for it. *)
Record Upstream (A : Type) := { ok : bool; text : str; json : A }.
Arguments ok {A} _.
Arguments text {A} _.
Arguments json {A} _.

(** The normalized result both proxies produce. *)
Record SearchResult := {
  id : str;
  title : str;
  year : option Z;
  imageUrl : str
}.

(** [JsonResults rs] stands for the text [JSON.stringify({ results: rs })]. *)
Inductive ResponseBody :=
  | JsonResults (results : list SearchResult)
  | RawText (s : str).

(** [new Response(body, { status, headers })]; the status defaults to 200. *)
Record Response := {
  status : N;
  resp_headers : list (str * str);
  resp_body : ResponseBody
}.

Definition json_response (rs : list SearchResult) : Response :=
  {| status := 200;
     resp_headers := [(lit "content-type", lit "application/json")];
     resp_body := JsonResults rs |}.

Definition error_response (msg : str) : Response :=
  {| status := 500; resp_headers := []; resp_body := RawText msg |}.

End Http.

(** ** Handlers as computations

    An [async] handler reads and writes the module's state, sends requests
    upstream and either returns or throws.  [fetched] lists the upstream
    requests it made, in order. *)

Module Eff.

Inductive exc (A : Type) :=
  | Returned (a : A)
  | Thrown (message : str).
Arguments Returned {A} _.
Arguments Thrown {A} _.

Record run (S A : Type) := {
  state_after : S;
  fetched : list Http.Request;
  outcome : exc A
}.
Arguments state_after {S A} _.
Arguments fetched {S A} _.
Arguments outcome {S A} _.

Definition M (S A : Type) := S -> run S A.

Definition ret {S A} (a : A) : M S A :=
  fun s => {| state_after := s; fetched := []; outcome := Returned a |}.

Definition throw {S A} (msg : str) : M S A :=
  fun s => {| state_after := s; fetched := []; outcome := Thrown msg |}.

Definition bind {S A B} (m : M S A) (k : A -> M S B) : M S B :=
  fun s =>
    let r := m s in
    match outcome r with
    | Returned a =>
        let r' := k a (state_after r) in
        {| state_after := state_after r';
           fetched := fetched r ++ fetched r';
           outcome := outcome r' |}
    | Thrown msg =>
        {| state_after := state_after r;
           fetched := fetched r;
           outcome := Thrown msg |}
    end.

Definition get {S} : M S S :=
  fun s => {| state_after := s; fetched := []; outcome := Returned s |}.

Definition put {S} (s' : S) : M S unit :=
  fun _ => {| state_after := s'; fetched := []; outcome := Returned tt |}.

(** [await fetch(...)] against an upstream [net]: the request is sent, and
    either an answer comes back or the promise is rejected (no connection)
    and the rejection is thrown at the [await]. *)
Definition fetch {S A} (net : Http.Request -> exc (Http.Upstream A))
    (r : Http.Request) : M S (Http.Upstream A) :=
  fun s => {| state_after := s; fetched := [r]; outcome := net r |}.

End Eff.

Notation "'await' x <- c1 ; c2" := (Eff.bind c1 (fun x => c2))
  (at level 10, x name, c1 at level 100, c2 at level 200).

(** ** The anime proxy: [src/app/api/search/anime/route.ts], lines 1-76 *)

Module AnimeRoute.
Import Http.

Record Title := {
  romaji : option str;
  english : option str;
  native : option str
}.

Record CoverImage := { extraLarge : option str; large : option str }.

Record StartDate := { start_year : option Z }.

Record Media := {
  media_id : Z;
  media_title : option Title;
  coverImage : option CoverImage;
  seasonYear : option Z;
  startDate : option StartDate
}.

Record Page := { media : option (list Media) }.
Record Data := { data_Page : option Page }.
Record AniListResponse := { data : option Data }.

(** The GraphQL document of lines 27-39 (an untrimmed template literal). *)
Definition query : str :=
  join_lf [
    [];
    lit "    query ($search: String) {";
    lit "      Page(page: 1, perPage: 24) {";
    lit "        media(search: $search, type: ANIME, sort: POPULARITY_DESC) {";
    lit "          id";
    lit "          title { romaji english native }";
    lit "          coverImage { extraLarge large }";
    lit "          seasonYear";
    lit "          startDate { year }";
    lit "        }";
    lit "      }";
    lit "    }";
    lit "  " ].

Definition anilist_request (q : str) : Request :=
  {| url := {| base := lit "https://graphql.anilist.co"; searchParams := [] |};
     method := lit "POST";
     headers := [(lit "Content-Type", lit "application/json");
                 (lit "Accept", lit "application/json")];
     body := JsonGraphQL query q |}.

(** [m.seasonYear || m.startDate?.year]: a number is falsy when it is 0. *)
Definition year_of (m : Media) : option Z :=
  match seasonYear m with
  | Some y => if (y =? 0)%Z then startDate m ≫= start_year else Some y
  | None => startDate m ≫= start_year
  end.

(** The callback of [.map] (lines 59-70). *)
Definition to_result (m : Media) : SearchResult :=
  let title :=
    or_str (or_opt (or_opt (media_title m ≫= english)
                           (media_title m ≫= romaji))
                   (media_title m ≫= native))
           (lit "Untitled") in
  let imageUrl :=
    or_str (or_opt (coverImage m ≫= extraLarge) (coverImage m ≫= large)) [] in
  {| id := String_of_int (media_id m);
     title := title;
     year := year_of m;
     imageUrl := imageUrl |}.

(** [json.data?.Page?.media?.map(..).filter((r) => r.imageUrl) ?? []]. *)
Definition results_of (json : AniListResponse) : list SearchResult :=
  match (data json ≫= data_Page) ≫= media with
  | Some ms => List.filter (fun r => truthy (imageUrl r)) (List.map to_result ms)
  | None => []
  end.

(** [GET]: [q0] is [searchParams.get(q)], [None] when the parameter is
    absent.  The route keeps no state between calls. *)
Definition GET (anilist : Request -> Eff.exc (Upstream AniListResponse))
    (q0 : option str) : Eff.M unit Response :=
  let q := trim (or_str q0 []) in
  if negb (truthy q) then Eff.ret (json_response [])
  else
    await resp <- Eff.fetch anilist (anilist_request q);
    if negb (ok resp) then
      Eff.ret (error_response (or_str (Some (text resp)) (lit "AniList search failed")))
    else
      Eff.ret (json_response (results_of (json resp))).

End AnimeRoute.

(** ** The game proxy: the second route of the file, lines 76-183 *)

Module GameRoute.
Import Http.

(** [let cachedToken: { token; expiresAt } | null = null]: the state of the
    module, shared by all calls.  Times are integral milliseconds. *)
Record CachedToken := { token : str; expiresAt : Z }.
Definition Cache := option CachedToken.

(** [process.env]. *)
Record Env := {
  TWITCH_CLIENT_ID : option str;
  TWITCH_CLIENT_SECRET : option str
}.

Record TokenJson := { access_token : str; expires_in : Z }.

Record Cover := { image_id : option str }.

Record IGDBGame := {
  game_id : Z;
  name : str;
  first_release_date : option Z;
  cover : option Cover
}.

(** What one call sees of the outside: the configuration, the clock
    ([Date.now()]) and the two upstream services. *)
Record World := {
  env : Env;
  now : Z;
  twitch : Request -> Eff.exc (Upstream TokenJson);
  igdb : Request -> Eff.exc (Upstream (list IGDBGame))
}.

(** [!v] fails, for a string or [undefined]: the truthy strings. *)
Definition configured (v : option str) : option str :=
  match v with
  | Some s => if truthy s then Some s else None
  | None => None
  end.

Definition missing_credentials : str :=
  lit "Missing TWITCH_CLIENT_ID or TWITCH_CLIENT_SECRET in .env.local".

Definition token_request (clientId clientSecret : str) : Request :=
  {| url := {| base := lit "https://id.twitch.tv/oauth2/token";
               searchParams := [(lit "client_id", clientId);
                                (lit "client_secret", clientSecret);
                                (lit "grant_type", lit "client_credentials")] |};
     method := lit "POST";
     headers := [];
     body := NoBody |}.

(** [cachedToken && cachedToken.expiresAt - 60_000 > now] (line 90). *)
Definition still_valid (c : Cache) (now : Z) : option CachedToken :=
  match c with
  | Some t => if (expiresAt t - 60000 >? now)%Z then Some t else None
  | None => None
  end.

(** Lines 94-111: the client-credentials exchange and the cache update. *)
Definition fetch_fresh_token (w : World) (clientId clientSecret : str)
    : Eff.M Cache str :=
  await resp <- Eff.fetch (twitch w) (token_request clientId clientSecret);
  if negb (ok resp) then
    Eff.throw (or_str (Some (text resp)) (lit "Failed to get Twitch token"))
  else
    let fresh := {| token := access_token (json resp);
                    expiresAt := (now w + expires_in (json resp) * 1000)%Z |} in
    await _ <- Eff.put (Some fresh);
    Eff.ret (token fresh).

Definition getTwitchAppToken (w : World) : Eff.M Cache str :=
  match configured (TWITCH_CLIENT_ID (env w)),
        configured (TWITCH_CLIENT_SECRET (env w)) with
  | Some clientId, Some clientSecret =>
      await cachedToken <- Eff.get;
      match still_valid cachedToken (now w) with
      | Some t => Eff.ret (token t)
      | None => fetch_fresh_token w clientId clientSecret
      end
  | _, _ => Eff.throw missing_credentials
  end.

(** The request text of lines 135-140: a trimmed template literal. *)
Definition apicalypse_body (q : str) : str :=
  trim (join_lf [
    [];
    lit "    search " ++ dq :: strip_quotes q ++ dq :: lit ";";
    lit "    fields name, first_release_date, cover.image_id;";
    lit "    where version_parent = null;";
    lit "    limit 24;";
    lit "  " ]).

Definition igdb_request (clientId token body : str) : Request :=
  {| url := {| base := lit "https://api.igdb.com/v4/games"; searchParams := [] |};
     method := lit "POST";
     headers := [(lit "Client-ID", clientId);
                 (lit "Authorization", lit "Bearer " ++ token);
                 (lit "Accept", lit "application/json");
                 (lit "Content-Type", lit "text/plain")];
     body := PlainText body |}.

(** [new Date(t).getUTCFullYear()] for a time value [t] in milliseconds:
    the proleptic Gregorian year of day [t / 86400000]. *)
Definition getUTCFullYear (t : Z) : Z :=
  let z := (t / 86400000 + 719468)%Z in
  let era := (z / 146097)%Z in
  let doe := (z - era * 146097)%Z in
  let yoe := ((doe - doe / 1460 + doe / 36524 - doe / 146096) / 365)%Z in
  let doy := (doe - (365 * yoe + yoe / 4 - yoe / 100))%Z in
  let mp := ((5 * doy + 2) / 153)%Z in
  (yoe + era * 400 + (if mp <? 10 then 0 else 1))%Z.

(** A [Date] holds time values up to 8.64e15 ms either way; beyond, the year
    is not a number and is left out here. *)
Definition year_of (g : IGDBGame) : option Z :=
  match first_release_date g with
  | Some s =>
      if (s =? 0)%Z then None
      else if (Z.abs (s * 1000) <=? 8640000000000000)%Z
           then Some (getUTCFullYear (s * 1000))
           else None
  | None => None
  end.

Definition image_url (g : IGDBGame) : str :=
  match cover g ≫= image_id with
  | Some i =>
      if truthy i
      then lit "https://images.igdb.com/igdb/image/upload/t_cover_big/"
           ++ i ++ lit ".jpg"
      else []
  | None => []
  end.

Definition to_result (g : IGDBGame) : SearchResult :=
  {| id := String_of_int (game_id g);
     title := name g;
     year := year_of g;
     imageUrl := image_url g |}.

Definition results_of (games : list IGDBGame) : list SearchResult :=
  List.filter (fun r => truthy (imageUrl r)) (List.map to_result games).

(** [GET]: [q0] is [searchParams.get(q)].  [clientId] is read with a
    non-null assertion; it is used only after [getTwitchAppToken] returned,
    hence only when it is a non-empty string. *)
Definition GET (w : World) (q0 : option str) : Eff.M Cache Response :=
  let q := trim (or_str q0 []) in
  if negb (truthy q) then Eff.ret (json_response [])
  else
    let clientId := default [] (TWITCH_CLIENT_ID (env w)) in
    await token <- getTwitchAppToken w;
    await resp <- Eff.fetch (igdb w)
                    (igdb_request clientId token (apicalypse_body q));
    if negb (ok resp) then
      Eff.ret (error_response (or_str (Some (text resp)) (lit "IGDB search failed")))
    else
      Eff.ret (json_response (results_of (json resp))).

End GameRoute.

(** ** The chart editor: [src/app/page.tsx] *)

Module Editor.

(** A cell object at run time.  [None] is [undefined]: a cell built by
    spreading over a missing element has no label. *)
Record CellData := { label : option str; imageUrl : option str }.

(** [Partial<CellData>]: for each key, [None] when the patch does not have
    the key, [Some v] when it has it with value [v] ([v = None] for an
    explicit [undefined], as in [clearImage]). *)
Record Patch := {
  patch_label : option (option str);
  patch_imageUrl : option (option str)
}.

Definition label_patch (v : str) : Patch :=
  {| patch_label := Some (Some v); patch_imageUrl := None |}.
Definition image_patch (v : option str) : Patch :=
  {| patch_label := None; patch_imageUrl := Some v |}.

(** A JavaScript array: [None] is a hole (or an [undefined] element). *)
Abbreviation array := (list (option CellData)).

(** [a[i]]: [undefined] at a hole and out of range. *)
Definition array_get (a : array) (i : nat) : option CellData :=
  mjoin (a !! i).

(** [a[i] = v]: in range the element is replaced; out of range the array
    grows to length [i + 1] and the new elements before [i] are holes. *)
Definition array_set (a : array) (i : nat) (v : CellData) : array :=
  if decide (i < length a) then <[i := Some v]> a
  else a ++ replicate (i - length a) None ++ [Some v].

(** [{ ...old, ...patch }]; spreading [undefined] adds no key. *)
Definition spread (old : option CellData) (p : Patch) : CellData :=
  {| label := default (old ≫= label) (patch_label p);
     imageUrl := default (old ≫= imageUrl) (patch_imageUrl p) |}.

Inductive SearchType := game | anime.

Definition rows : nat := 3.
Definition cols : nat := 6.

Definition defaultLabels : list str := [
  lit "Favorite Game of all Time";
  lit "Favorite Series";
  lit "Best Soundtrack";
  lit "Favorite Protagonist";
  lit "Favorite Villain";
  lit "Best Story";
  lit "Have not played but want to";
  lit "You Love Everyone Hates";
  lit "You Hate Everyone Loves";
  lit "Best Art Style";
  lit "Favorite Ending";
  lit "Favorite Boss Fight";
  lit "Childhood Game";
  lit "Relaxing Game";
  lit "Stressful Game";
  lit "Game you always come back to";
  lit "Guilty Pleasure";
  lit "Tons of Hours Played" ].

(** The component's state, and what it has done to the page besides:
    the [alert]s shown, the files offered for download, and the
    [FileReader]s still reading.  A reader's [onload] closes over the
    [updateSelected] of the render that started it, hence over the index
    selected then. *)
Record State := {
  chartTitle : str;
  cells : array;
  selectedIndex : option nat;
  isExporting : bool;
  isSearchOpen : bool;
  searchType : SearchType;
  query : str;
  results : list Http.SearchResult;
  isSearching : bool;
  searchError : option str;
  alerts : list str;
  downloads : list str;
  readers : list nat
}.

Definition initial : State :=
  {| chartTitle := lit "About You: Video Games/Anime";
     cells := List.map (fun l => Some {| label := Some l; imageUrl := None |})
                defaultLabels;
     selectedIndex := None;
     isExporting := false;
     isSearchOpen := false;
     searchType := game;
     query := [];
     results := [];
     isSearching := false;
     searchError := None;
     alerts := [];
     downloads := [];
     readers := [] |}.

Definition set_cells (f : array -> array) (st : State) : State :=
  {| chartTitle := chartTitle st; cells := f (cells st);
     selectedIndex := selectedIndex st; isExporting := isExporting st;
     isSearchOpen := isSearchOpen st; searchType := searchType st;
     query := query st; results := results st; isSearching := isSearching st;
     searchError := searchError st; alerts := alerts st;
     downloads := downloads st; readers := readers st |}.

Definition setSelectedIndex (i : option nat) (st : State) : State :=
  {| chartTitle := chartTitle st; cells := cells st;
     selectedIndex := i; isExporting := isExporting st;
     isSearchOpen := isSearchOpen st; searchType := searchType st;
     query := query st; results := results st; isSearching := isSearching st;
     searchError := searchError st; alerts := alerts st;
     downloads := downloads st; readers := readers st |}.

Definition setIsSearchOpen (b : bool) (st : State) : State :=
  {| chartTitle := chartTitle st; cells := cells st;
     selectedIndex := selectedIndex st; isExporting := isExporting st;
     isSearchOpen := b; searchType := searchType st;
     query := query st; results := results st; isSearching := isSearching st;
     searchError := searchError st; alerts := alerts st;
     downloads := downloads st; readers := readers st |}.

Definition alert (msg : str) (st : State) : State :=
  {| chartTitle := chartTitle st; cells := cells st;
     selectedIndex := selectedIndex st; isExporting := isExporting st;
     isSearchOpen := isSearchOpen st; searchType := searchType st;
     query := query st; results := results st; isSearching := isSearching st;
     searchError := searchError st; alerts := alerts st ++ [msg];
     downloads := downloads st; readers := readers st |}.

Definition set_readers (f : list nat -> list nat) (st : State) : State :=
  {| chartTitle := chartTitle st; cells := cells st;
     selectedIndex := selectedIndex st; isExporting := isExporting st;
     isSearchOpen := isSearchOpen st; searchType := searchType st;
     query := query st; results := results st; isSearching := isSearching st;
     searchError := searchError st; alerts := alerts st;
     downloads := downloads st; readers := f (readers st) |}.

(** [updateSelected] as closed over the selected index [sel] of some
    render; [setCells] applies its updater to the current array. *)
Definition updateSelected_of (sel : option nat) (patch : Patch) (st : State)
    : State :=
  match sel with
  | None => st
  | Some i =>
      set_cells (fun prev => array_set prev i (spread (array_get prev i) patch)) st
  end.

(** [updateSelected] called from a handler of the current render. *)
Definition updateSelected (patch : Patch) (st : State) : State :=
  updateSelected_of (selectedIndex st) patch st.

Record File := { type : str }.

Definition rejection : str :=
  lit "Please upload an image file (png/jpg/webp/etc).".

(** [handleUploadImage]: on an image the reader starts and the call
    returns; the reader's events come later ([reader_onload],
    [reader_onerror]). *)
Definition handleUploadImage (file : File) (st : State) : State :=
  match selectedIndex st with
  | None => st
  | Some i =>
      if negb (startsWith (type file) (lit "image/")) then alert rejection st
      else set_readers (fun rs => rs ++ [i]) st
  end.

(** Removes the first occurrence of reader [i] from the pending ones. *)
Fixpoint finish_reader (i : nat) (rs : list nat) : list nat :=
  match rs with
  | [] => []
  | r :: rs' => if decide (r = i) then rs' else r :: finish_reader i rs'
  end.

(** [reader.onload] of a reader started while [i] was selected. *)
Definition reader_onload (i : nat) (dataUrl : str) (st : State) : State :=
  updateSelected_of (Some i) (image_patch (Some dataUrl))
    (set_readers (finish_reader i) st).

Definition reader_onerror (i : nat) (st : State) : State :=
  alert (lit "Failed to read the image file.") (set_readers (finish_reader i) st).

Definition pickResult (r : Http.SearchResult) (st : State) : State :=
  match selectedIndex st with
  | None => st
  | Some _ =>
      setIsSearchOpen false
        (updateSelected (image_patch (Some (Http.imageUrl r))) st)
  end.

Definition clearImage (st : State) : State :=
  updateSelected (image_patch None) st.

Definition setChartTitle (v : str) (st : State) : State :=
  {| chartTitle := v; cells := cells st;
     selectedIndex := selectedIndex st; isExporting := isExporting st;
     isSearchOpen := isSearchOpen st; searchType := searchType st;
     query := query st; results := results st; isSearching := isSearching st;
     searchError := searchError st; alerts := alerts st;
     downloads := downloads st; readers := readers st |}.

(** The setters of the search modal, grouped: type, query text, result
    list, loading flag and error message. *)
Definition set_search (t : SearchType) (q : str)
    (rs : list Http.SearchResult) (busy : bool) (err : option str)
    (st : State) : State :=
  {| chartTitle := chartTitle st; cells := cells st;
     selectedIndex := selectedIndex st; isExporting := isExporting st;
     isSearchOpen := isSearchOpen st; searchType := t;
     query := q; results := rs; isSearching := busy;
     searchError := err; alerts := alerts st;
     downloads := downloads st; readers := readers st |}.

Definition setQuery (v : str) (st : State) : State :=
  set_search (searchType st) v (results st) (isSearching st) (searchError st) st.

Definition setSearchType (t : SearchType) (st : State) : State :=
  set_search t (query st) (results st) (isSearching st) (searchError st) st.

(** [runSearch] up to its [await fetch]: nothing on a blank query. *)
Definition runSearch (st : State) : State :=
  if negb (truthy (trim (query st))) then st
  else set_search (searchType st) (query st) [] true None st.

(** How the request of [runSearch] ends: an answer with [res.ok] and its
    decoded [data.results], an answer without [res.ok] and its text, or a
    thrown value with its [message], if any. *)
Inductive SearchOutcome :=
  | Answered (data_results : option (list Http.SearchResult))
  | Refused (msg : str)
  | Failed (message : option str).

(** [runSearch] after its [await]s, [finally] included. *)
Definition runSearch_settled (o : SearchOutcome) (st : State) : State :=
  match o with
  | Answered rs =>
      set_search (searchType st) (query st) (default [] rs) false
        (searchError st) st
  | Refused msg =>
      set_search (searchType st) (query st) (results st) false
        (Some (or_str (Some msg) (lit "Search failed"))) st
  | Failed message =>
      set_search (searchType st) (query st) (results st) false
        (Some (default (lit "Search failed") message)) st
  end.

Definition set_export (busy : bool) (files : list str) (st : State) : State :=
  {| chartTitle := chartTitle st; cells := cells st;
     selectedIndex := selectedIndex st; isExporting := busy;
     isSearchOpen := isSearchOpen st; searchType := searchType st;
     query := query st; results := results st; isSearching := isSearching st;
     searchError := searchError st; alerts := alerts st;
     downloads := files; readers := readers st |}.

(** The characters removed from the file name: backslash, slash, colon,
    star, question mark, double quote, angle brackets and bar. *)
Definition unsafe_in_file_name (c : char) : bool :=
  ((c =? 92) || (c =? 47) || (c =? 58) || (c =? 42) || (c =? 63)
   || (c =? 34) || (c =? 60) || (c =? 62) || (c =? 124))%N.

Definition file_name (title : str) : str :=
  List.filter (fun c => negb (unsafe_in_file_name c))
    (or_str (Some title) (lit "chart")) ++ lit ".png".

(** [exportPng] up to its [await toPng], and after it; [title] is the
    chart title of the render whose button was clicked. *)
Definition exportPng (st : State) : State :=
  set_export true (downloads st) st.

Definition export_failed : str :=
  lit "Export failed. If this happens after adding external images, it may be a CORS issue. (Uploads should export reliably.)".

Definition exportPng_settled (title : str) (rendered : bool) (st : State)
    : State :=
  if rendered then set_export false (downloads st ++ [file_name title]) st
  else set_export false (downloads st) (alert export_failed st).

(** What the user and the page can make happen. *)
Inductive Event :=
  | ClickCell (i : nat)
  | EditLabel (v : str)
  | EditTitle (v : str)
  | ChooseFile (f : File)
  | ReaderLoaded (i : nat) (dataUrl : str)
  | ReaderFailed (i : nat)
  | ClickClear
  | OpenSearch
  | CloseSearch
  | PressEscape
  | EditQuery (v : str)
  | ChooseSearchType (t : SearchType)
  | ClickSearch
  | SearchSettled (o : SearchOutcome)
  | ClickResult (r : Http.SearchResult)
  | ClickExport
  | ExportSettled (title : str) (rendered : bool).

Definition handle (ev : Event) (st : State) : State :=
  match ev with
  | ClickCell i => setSelectedIndex (Some i) st
  | EditLabel v => updateSelected (label_patch v) st
  | EditTitle v => setChartTitle v st
  | ChooseFile f => handleUploadImage f st
  | ReaderLoaded i dataUrl => reader_onload i dataUrl st
  | ReaderFailed i => reader_onerror i st
  | ClickClear => clearImage st
  | OpenSearch => setIsSearchOpen true st
  | CloseSearch => setIsSearchOpen false st
  | PressEscape => if isSearchOpen st then setIsSearchOpen false st else st
  | EditQuery v => setQuery v st
  | ChooseSearchType t => setSearchType t st
  | ClickSearch => runSearch st
  | SearchSettled o => runSearch_settled o st
  | ClickResult r => pickResult r st
  | ClickExport => exportPng st
  | ExportSettled title rendered => exportPng_settled title rendered st
  end.

(** The grid has one button per [i] below [rows * cols] (line 284), and a
    reader's events come from a reader that was started. *)
Definition enabled (ev : Event) (st : State) : Prop :=
  match ev with
  | ClickCell i => i < rows * cols
  | ReaderLoaded i _ | ReaderFailed i => i ∈ readers st
  | _ => True
  end.

Inductive reachable : State -> Prop :=
  | reachable_initial : reachable initial
  | reachable_step st ev :
      reachable st -> enabled ev st -> reachable (handle ev st).

End Editor.

(** * Vocabulary of the properties

    The words in which the properties below are stated, and the concrete
    inputs on which they are tried. *)

Definition all_white_space (s : str) : bool := forallb is_white_space s.

(** The [q] parameter is absent, empty or made of white space only. *)
Definition blank (q0 : option str) : bool :=
  match q0 with
  | Some s => all_white_space s
  | None => true
  end.

Section AnimeVocabulary.
Import Http AnimeRoute.

(** The first field, in the given order of preference, that is present. *)
Fixpoint first_present (fields : list (option str)) : option str :=
  match fields with
  | [] => None
  | Some s :: _ => Some s
  | None :: rest => first_present rest
  end.

(** The first field, in the given order of preference, that is present and
    not the empty string. *)
Fixpoint first_nonempty (fields : list (option str)) : option str :=
  match fields with
  | [] => None
  | Some (c :: s) :: _ => Some (c :: s)
  | _ :: rest => first_nonempty rest
  end.

Definition title_fields (m : Media) : list (option str) :=
  [media_title m ≫= english; media_title m ≫= romaji; media_title m ≫= native].

Definition cover_fields (m : Media) : list (option str) :=
  [coverImage m ≫= extraLarge; coverImage m ≫= large].

(** An upstream item lacking any cover image field. *)
Definition lacks_cover (m : Media) : Prop :=
  coverImage m ≫= extraLarge = None /\ coverImage m ≫= large = None.

(** The normalized result of an item, if it has one: the image is the
    first non-empty cover field, the title the first non-empty title field
    or else the word Untitled. *)
Definition normalize (m : Media) : option SearchResult :=
  match first_nonempty (cover_fields m) with
  | Some u =>
      Some {| id := String_of_int (media_id m);
              title := default (lit "Untitled") (first_nonempty (title_fields m));
              year := year_of m;
              imageUrl := u |}
  | None => None
  end.

Definition media_of (json : AniListResponse) : list Media :=
  default [] ((data json ≫= data_Page) ≫= media).

(** The sentence of the specification, read literally: every returned
    result comes from an upstream item, its title is the first title field
    that is present (or else Untitled) and its image the first cover field
    that is present. *)
Definition results_by_presence : Prop :=
  forall json r,
    r ∈ results_of json ->
    exists m,
      m ∈ media_of json /\ r = to_result m /\
      title r = default (lit "Untitled") (first_present (title_fields m)) /\
      first_present (cover_fields m) = Some (imageUrl r).

(** The sentence of the specification on upstream failures, read
    literally: the body of the 500 answer is the upstream's text. *)
Definition error_body_is_upstream_text : Prop :=
  forall (anilist : Request -> Eff.exc (Upstream AniListResponse)) q0 resp,
    blank q0 = false ->
    anilist (anilist_request (trim (or_str q0 []))) = Eff.Returned resp ->
    ok resp = false ->
    Eff.outcome (GET anilist q0 tt) = Eff.Returned (error_response (text resp)).

Definition anilist_down : Request -> Eff.exc (Upstream AniListResponse) :=
  fun _ => Eff.Returned {| ok := false; text := []; json := {| data := None |} |}.

Definition naruto : Media :=
  {| media_id := 20;
     media_title := Some {| romaji := Some (lit "Naruto");
                            english := Some [];
                            native := None |};
     coverImage := Some {| extraLarge := Some (lit "http://x/y.jpg");
                           large := None |};
     seasonYear := Some 2002%Z;
     startDate := None |}.

Definition one_item (m : Media) : AniListResponse :=
  {| data := Some {| data_Page := Some {| media := Some [m] |} |} |}.

Definition anilist_answers (json : AniListResponse)
    : Request -> Eff.exc (Upstream AniListResponse) :=
  fun _ => Eff.Returned {| ok := true; text := []; json := json |}.

End AnimeVocabulary.

(** ** The request language of the games database

    The request text of the game proxy is a sequence of statements of the
    upstream's query language.  [render] writes a sequence of statements the
    way the template of [GameRoute.apicalypse_body] lays them out, and
    [passes] is the meaning of its [where] statements on the fields of an
    upstream record. *)

Module Apicalypse.

Inductive value :=
  | Null
  | Num (n : Z).

(** [field = v]. *)
Inductive condition := FieldIs (field : str) (v : value).

Inductive statement :=
  | SearchFor (text : str)
  | Fields (names : list str)
  | Where (c : condition)
  | Limit (n : Z).

Fixpoint join (sep : str) (ls : list str) : str :=
  match ls with
  | [] => []
  | [l] => l
  | l :: ls' => l ++ sep ++ join sep ls'
  end.

Definition render_value (v : value) : str :=
  match v with
  | Null => lit "null"
  | Num n => String_of_int n
  end.

Definition render_statement (s : statement) : str :=
  match s with
  | SearchFor t => lit "search " ++ dq :: t ++ dq :: lit ";"
  | Fields ns => lit "fields " ++ join (lit ", ") ns ++ lit ";"
  | Where (FieldIs f v) => lit "where " ++ f ++ lit " = " ++ render_value v ++ lit ";"
  | Limit n => lit "limit " ++ String_of_int n ++ lit ";"
  end.

(** One statement per line, the lines after the first indented by four. *)
Definition render (q : list statement) : str :=
  join (lf :: lit "    ") (List.map render_statement q).

(** An upstream record: the fields that are set, with their values; a field
    that is not set is [null]. *)
Definition entry := list (str * value).

Fixpoint field_of (e : entry) (f : str) : value :=
  match e with
  | [] => Null
  | (g, v) :: e' => if decide (g = f) then v else field_of e' f
  end.

Definition value_eqb (a b : value) : bool :=
  match a, b with
  | Null, Null => true
  | Num x, Num y => (x =? y)%Z
  | _, _ => false
  end.

Definition holds (c : condition) (e : entry) : bool :=
  match c with FieldIs f v => value_eqb (field_of e f) v end.

(** The record satisfies every [where] statement of the request. *)
Definition passes (q : list statement) (e : entry) : bool :=
  forallb (fun s => match s with Where c => holds c e | _ => true end) q.

(** The bound on the number of results: the last [limit] statement. *)
Definition limit_of (q : list statement) : option Z :=
  last (omap (fun s => match s with Limit n => Some n | _ => None end) q).

(** The statements the game proxy sends for the (trimmed) query [q]. *)
Definition game_query (q : str) : list statement :=
  [ SearchFor (strip_quotes q);
    Fields [lit "name"; lit "first_release_date"; lit "cover.image_id"];
    Where (FieldIs (lit "version_parent") Null);
    Limit 24 ].

(** In the games database a record of category 1 is downloadable content
    of the game its [parent_game] names, and a record with a
    [version_parent] is a version (edition) of that game. *)
Definition is_dlc (e : entry) : Prop := field_of e (lit "category") = Num 1.
Definition is_version_variant (e : entry) : Prop :=
  field_of e (lit "version_parent") <> Null.

Definition excludes (q : list statement) (P : entry -> Prop) : Prop :=
  forall e, P e -> passes q e = false.

End Apicalypse.

Section GameVocabulary.
Import Http GameRoute Apicalypse.

(** The sentence of the specification on the token, read literally, for a
    call of [getTwitchAppToken] in the world [w] with the cache [cache]: a
    cached token that expires more than 60 seconds after the call is
    returned with no request made; otherwise the client-credentials request
    is made, and the token it brings is cached with its expiry and
    returned. *)
Definition reused_or_refreshed (w : World) (cache : Cache) : Prop :=
  let r := getTwitchAppToken w cache in
  (forall t, cache = Some t -> (now w + 60000 < expiresAt t)%Z ->
     Eff.outcome r = Eff.Returned (token t) /\ Eff.fetched r = [])
  /\
  ((forall t, cache = Some t -> (expiresAt t <= now w + 60000)%Z) ->
     exists req resp,
       Eff.fetched r = [req] /\
       (lit "grant_type", lit "client_credentials") ∈ searchParams (url req) /\
       twitch w req = Eff.Returned resp /\
       Eff.outcome r = Eff.Returned (access_token (json resp)) /\
       Eff.state_after r =
         Some {| token := access_token (json resp);
                 expiresAt := (now w + expires_in (json resp) * 1000)%Z |}).

Definition credentials : Env :=
  {| TWITCH_CLIENT_ID := Some (lit "id"); TWITCH_CLIENT_SECRET := Some (lit "secret") |}.

Definition no_credentials : Env :=
  {| TWITCH_CLIENT_ID := None; TWITCH_CLIENT_SECRET := None |}.

Definition twitch_up : Request -> Eff.exc (Upstream TokenJson) :=
  fun _ => Eff.Returned
    {| ok := true; text := [];
       json := {| access_token := lit "fresh"; expires_in := 3600 |} |}.

Definition twitch_down : Request -> Eff.exc (Upstream TokenJson) :=
  fun _ => Eff.Returned
    {| ok := false; text := lit "invalid client";
       json := {| access_token := []; expires_in := 0 |} |}.

Definition igdb_empty : Request -> Eff.exc (Upstream (list IGDBGame)) :=
  fun _ => Eff.Returned {| ok := true; text := []; json := [] |}.

Definition world (e : Env) (t : Z)
    (tw : Request -> Eff.exc (Upstream TokenJson)) : World :=
  {| env := e; now := t; twitch := tw; igdb := igdb_empty |}.

Definition old_token : CachedToken := {| token := lit "old"; expiresAt := 500000 |}.

(** A record of downloadable content: category 1, with a parent game and no
    version parent. *)
Definition dlc_entry : entry :=
  [(lit "category", Num 1); (lit "parent_game", Num 1942)].

(** The sentence of the specification on the request, read literally. *)
Definition request_as_stated : Prop :=
  forall q : str, q <> [] ->
    limit_of (game_query q) = Some 24%Z /\
    excludes (game_query q) is_dlc /\
    excludes (game_query q) is_version_variant.

End GameVocabulary.

Section EditorVocabulary.
Import Editor.

(** What holds in every state the editor can be in: there are 18 cells, and
    the selected index and the indices the pending readers closed over are
    below 18. *)
Record invariant (st : State) : Prop := {
  inv_cells : length (cells st) = 18;
  inv_selected : forall i, selectedIndex st = Some i -> i < 18;
  inv_readers : forall i, i ∈ readers st -> i < 18
}.

(** Three clicks and an edit, used to try the statements below. *)
Definition after_select_3 : State := handle (ClickCell 3) initial.

End EditorVocabulary.

Definition picked : Http.SearchResult :=
  {| Http.id := lit "20"; Http.title := lit "Naruto"; Http.year := Some 2002%Z;
     Http.imageUrl := lit "http://x/y.jpg" |}.

(** * What the page derives from the editor's state

    [src/app/page.tsx], lines 56, 285 and 367: values computed at each
    render from the state of module [Editor]. *)

Module EditorView.
Import Editor.

(** [selectedIndex !== null ? cells[selectedIndex] : null] (line 56);
    [None] stands for both [null] and [undefined]. *)
Definition selectedCell (st : State) : option CellData :=
  match selectedIndex st with
  | Some i => array_get (cells st) i
  | None => None
  end.

(** The side panel shows the label input and the image buttons when
    [selectedCell] is truthy, and a hint otherwise (line 367). *)
Definition editor_shown (st : State) : bool :=
  match selectedCell st with Some _ => true | None => false end.

(** The cell drawn at grid position [i] (line 285): the cell of the array
    or, when there is none, a placeholder labelled with the position
    counted from one.  Only the label and the image of the cell are
    read. *)
Definition shown_cell (st : State) (i : nat) : CellData :=
  match array_get (cells st) i with
  | Some c => c
  | None =>
      {| label := Some (lit "Cell " ++ String_of_int (Z.of_nat (i + 1)));
         imageUrl := None |}
  end.

(** The grid draws [rows * cols] positions (line 284). *)
Definition grid (st : State) : list CellData :=
  List.map (shown_cell st) (seq 0 (rows * cols)).

End EditorView.

(** * More vocabulary *)

Section GameResultsVocabulary.
Import Http GameRoute.

(** The statements of the request text that follow the search string. *)
Definition body_tail : str :=
  lit ";" ++ lf :: lit "    fields name, first_release_date, cover.image_id;"
  ++ lf :: lit "    where version_parent = null;"
  ++ lf :: lit "    limit 24;".

(** The number of double quotes in a text. *)
Definition quotes (s : str) : nat := count_occ N.eq_dec s dq.

Definition cover_url (image : str) : str :=
  lit "https://images.igdb.com/igdb/image/upload/t_cover_big/"
  ++ image ++ lit ".jpg".

(** The result of a game, if it has one: the game needs a cover with a
    non-empty image identifier. *)
Definition normalize_game (g : IGDBGame) : option SearchResult :=
  match cover g ≫= image_id with
  | Some (c :: s) =>
      Some {| id := String_of_int (game_id g);
              title := name g;
              year := year_of g;
              imageUrl := cover_url (c :: s) |}
  | _ => None
  end.

(** Both credentials are set and not empty. *)
Definition has_credentials (e : Env) (clientId clientSecret : str) : Prop :=
  TWITCH_CLIENT_ID e = Some clientId /\ clientId <> [] /\
  TWITCH_CLIENT_SECRET e = Some clientSecret /\ clientSecret <> [].

Definition igdb_answers (games : list IGDBGame)
    : Request -> Eff.exc (Upstream (list IGDBGame)) :=
  fun _ => Eff.Returned {| ok := true; text := []; json := games |}.

Definition igdb_down : Request -> Eff.exc (Upstream (list IGDBGame)) :=
  fun _ => Eff.Returned {| ok := false; text := lit "Too Many Requests"; json := [] |}.

Definition zelda : IGDBGame :=
  {| game_id := 1022; name := lit "The Legend of Zelda";
     first_release_date := Some 509328000%Z;
     cover := Some {| image_id := Some (lit "co1uii") |} |}.

Definition coverless : IGDBGame :=
  {| game_id := 7; name := lit "No cover"; first_release_date := None;
     cover := None |}.

(** The part of [GET] after the token (lines 134-182): the request to the games database and the
    answer made of it. *)
Definition search_step (w : World) (q tok : str) : Eff.M Cache Response :=
  await resp <- Eff.fetch (igdb w)
                  (igdb_request (default [] (TWITCH_CLIENT_ID (env w))) tok
                     (apicalypse_body q));
  if negb (ok resp) then
    Eff.ret (error_response (or_str (Some (text resp)) (lit "IGDB search failed")))
  else
    Eff.ret (json_response (results_of (json resp))).

Definition world_with (games : Request -> Eff.exc (Upstream (list IGDBGame)))
    (e : Env) (t : Z) (tw : Request -> Eff.exc (Upstream TokenJson)) : World :=
  {| env := e; now := t; twitch := tw; igdb := games |}.

End GameResultsVocabulary.

Section EditorMoreVocabulary.
Import Editor.

(** Every position of the grid holds a cell object that has a label. *)
Definition labelled (st : State) : Prop :=
  forall j, j < 18 ->
    exists c l, array_get (cells st) j = Some c /\ label c = Some l.

(** The events that can change the cell array. *)
Definition edits_cells (ev : Event) : bool :=
  match ev with
  | EditLabel _ | ReaderLoaded _ _ | ClickClear | ClickResult _ => true
  | _ => false
  end.

Definition png : File := {| type := lit "image/png" |}.

End EditorMoreVocabulary.

(** * Properties *)

(** ** The embedding on concrete inputs *)

Example trim_example :
  trim (lit "  one piece " ++ [lf]) = lit "one piece".
Proof. reflexivity. Qed.

Example strip_quotes_example :
  strip_quotes (lit "a" ++ [dq] ++ lit "b" ++ [dq]) = lit "ab".
Proof. reflexivity. Qed.

Example String_of_int_example : String_of_int 1942 = lit "1942".
Proof. reflexivity. Qed.

Example getUTCFullYear_examples :
  List.map GameRoute.getUTCFullYear
    [0; -1; 1709164800000; 1735689599000; 1735689600000; 951782400000]%Z
  = [1970; 1969; 2024; 2024; 2025; 2000]%Z.
Proof. reflexivity. Qed.

Example apicalypse_body_example :
  GameRoute.apicalypse_body (lit "zelda") =
  join_lf [ lit "search " ++ dq :: lit "zelda" ++ dq :: lit ";";
            lit "    fields name, first_release_date, cover.image_id;";
            lit "    where version_parent = null;";
            lit "    limit 24;" ].
Proof. reflexivity. Qed.

Example initial_cells :
  length (Editor.cells Editor.initial) = Editor.rows * Editor.cols /\
  Editor.array_get (Editor.cells Editor.initial) 3
    = Some {| Editor.label := Some (lit "Favorite Protagonist");
              Editor.imageUrl := None |} /\
  Forall (fun c => c ≫= Editor.imageUrl = None) (Editor.cells Editor.initial).
Proof. split; [reflexivity|]. split; [reflexivity|]. repeat constructor. Qed.

Example array_set_out_of_range :
  Editor.array_set [None] 3 {| Editor.label := None; Editor.imageUrl := None |}
  = [None; None; None; Some {| Editor.label := None; Editor.imageUrl := None |}].
Proof. reflexivity. Qed.

Example file_name_example :
  Editor.file_name (lit "About You: Video Games/Anime")
  = lit "About You Video GamesAnime.png".
Proof. reflexivity. Qed.

(** ** Trimming *)

Section Trim.

Lemma trimStart_app_white w s :
  all_white_space w = true -> trimStart (w ++ s) = trimStart s.
Proof.
  induction w as [|c w IH]; simpl; [done|].
  intros [Hc Hw]%andb_true_iff. rewrite Hc. auto.
Qed.

Lemma trimStart_nil_iff s : trimStart s = [] <-> all_white_space s = true.
Proof.
  induction s as [|c s IH]; simpl; [done|].
  destruct (is_white_space c); simpl; [done|].
  split; discriminate.
Qed.

Lemma trimStart_white_free c s :
  is_white_space c = false -> trimStart (c :: s) = c :: s.
Proof. simpl. by intros ->. Qed.

Lemma all_white_space_rev s : all_white_space (rev s) = all_white_space s.
Proof.
  unfold all_white_space. induction s as [|c s IH]; simpl; [done|].
  rewrite forallb_app, IH. simpl. rewrite andb_true_r. apply andb_comm.
Qed.

Lemma trimEnd_app_white s w :
  all_white_space w = true -> trimEnd (s ++ w) = trimEnd s.
Proof.
  intros Hw. unfold trimEnd. rewrite rev_app_distr.
  rewrite trimStart_app_white; [done|]. by rewrite all_white_space_rev.
Qed.

Lemma trimEnd_snoc s c :
  is_white_space c = false -> trimEnd (s ++ [c]) = s ++ [c].
Proof.
  intros Hc. unfold trimEnd. rewrite rev_app_distr. simpl.
  rewrite Hc. simpl. by rewrite rev_involutive.
Qed.

Lemma trimEnd_nil_iff s : trimEnd s = [] <-> all_white_space s = true.
Proof.
  unfold trimEnd. rewrite <- (all_white_space_rev s), <- trimStart_nil_iff.
  split; intros H.
  - apply (f_equal (@rev char)) in H. by rewrite rev_involutive in H.
  - by rewrite H.
Qed.

Lemma trimStart_head s :
  trimStart s = [] \/
  exists c r, trimStart s = c :: r /\ is_white_space c = false.
Proof.
  induction s as [|c s IH]; simpl; [by left|].
  destruct (is_white_space c) eqn:Hc; [done|]. right. eauto.
Qed.

Lemma trim_nil_iff s : trim s = [] <-> all_white_space s = true.
Proof.
  unfold trim. rewrite trimEnd_nil_iff.
  destruct (trimStart_head s) as [H | (c & r & H & Hc)].
  - rewrite H. simpl. split; [intros _ | done]. by apply trimStart_nil_iff.
  - rewrite H. simpl. rewrite Hc. simpl.
    split; [discriminate|]. intros Hs%trimStart_nil_iff. congruence.
Qed.

(** [(searchParams.get(q) || empty).trim()] is falsy exactly on a blank
    parameter. *)
Lemma query_falsy_iff q0 :
  truthy (trim (or_str q0 [])) = false <-> blank q0 = true.
Proof.
  assert (Ht : forall s : str, truthy s = false <-> s = [])
    by (intros [|]; simpl; split; congruence).
  rewrite Ht, trim_nil_iff. destruct q0 as [[|c s]|]; simpl; done.
Qed.

Lemma query_truthy_iff q0 :
  truthy (trim (or_str q0 [])) = true <-> blank q0 = false.
Proof.
  pose proof (query_falsy_iff q0) as H.
  destruct (truthy _), (blank q0); intuition congruence.
Qed.

End Trim.

(** ** Sending a request *)

Section Effects.
Context {S A B : Type}.
Implicit Types (net : Http.Request -> Eff.exc (Http.Upstream A))
  (k : Http.Upstream A -> Eff.M S B).

Lemma bind_fetch_returned net r resp k s :
  net r = Eff.Returned resp ->
  Eff.bind (Eff.fetch net r) k s =
    {| Eff.state_after := Eff.state_after (k resp s);
       Eff.fetched := r :: Eff.fetched (k resp s);
       Eff.outcome := Eff.outcome (k resp s) |}.
Proof. intros H. unfold Eff.bind, Eff.fetch. cbn. by rewrite H. Qed.

Lemma bind_fetch_thrown net r msg k s :
  net r = Eff.Thrown msg ->
  Eff.bind (Eff.fetch net r) k s =
    {| Eff.state_after := s; Eff.fetched := [r]; Eff.outcome := Eff.Thrown msg |}.
Proof. intros H. unfold Eff.bind, Eff.fetch. cbn. by rewrite H. Qed.

Lemma fetched_bind_fetch net r k s :
  (forall resp, Eff.fetched (k resp s) = []) ->
  Eff.fetched (Eff.bind (Eff.fetch net r) k s) = [r].
Proof.
  intros Hk. unfold Eff.bind, Eff.fetch. cbn.
  destruct (net r) as [resp|msg]; cbn; [|done]. by rewrite Hk.
Qed.

Lemma bind_get (k : S -> Eff.M S B) (s : S) :
  Eff.bind Eff.get k s = k s s.
Proof. unfold Eff.bind, Eff.get. cbn. by destruct (k s s). Qed.

End Effects.

(** ** The anime proxy *)

Section Anime.
Import Http AnimeRoute.

Lemma or_chain3 (a b c : option str) (d : str) :
  or_str (or_opt (or_opt a b) c) d = default d (first_nonempty [a; b; c]).
Proof. by destruct a as [[|]|], b as [[|]|], c as [[|]|]. Qed.

Lemma or_chain2 (a b : option str) :
  or_str (or_opt a b) [] = default [] (first_nonempty [a; b]).
Proof. by destruct a as [[|]|], b as [[|]|]. Qed.

Lemma first_nonempty_truthy fields u :
  first_nonempty fields = Some u -> truthy u = true.
Proof.
  induction fields as [|[[|c s]|] fields IH]; simpl; try done.
  by intros [= <-].
Qed.

Lemma to_result_normalize m :
  (if truthy (imageUrl (to_result m)) then Some (to_result m) else None)
  = normalize m.
Proof.
  unfold to_result, normalize, title_fields, cover_fields.
  cbn [imageUrl]. rewrite or_chain3, or_chain2.
  destruct (first_nonempty [_; _]) as [u|] eqn:Hu; cbn [default]; [|done].
  change (Datatypes.id u) with u. by rewrite (first_nonempty_truthy _ _ Hu).
Qed.

Lemma omap_cons {A B} (f : A -> option B) (x : A) (l : list A) :
  omap f (x :: l) =
  match f x with Some y => y :: omap f l | None => omap f l end.
Proof. reflexivity. Qed.

Lemma filter_map_normalize ms :
  List.filter (fun r => truthy (imageUrl r)) (List.map to_result ms)
  = omap normalize ms.
Proof.
  induction ms as [|m ms IH]; [done|].
  rewrite omap_cons, <- to_result_normalize, <- IH.
  cbn [List.map List.filter].
  by destruct (truthy (imageUrl (to_result m))).
Qed.

Lemma results_of_normalize json :
  results_of json = omap normalize (media_of json).
Proof.
  unfold results_of, media_of.
  destruct ((data json ≫= data_Page) ≫= media) as [ms|]; [|done].
  apply filter_map_normalize.
Qed.

Lemma lacks_cover_normalize m : lacks_cover m -> normalize m = None.
Proof. intros [H1 H2]. unfold normalize, cover_fields. by rewrite H1, H2. Qed.

End Anime.

(** C3: an anime search whose [q] parameter is absent, empty or white space
    only is answered with the empty result list (status 200, JSON), and no
    request is sent upstream. *)
Theorem anime_blank_query_short_circuit
    (anilist : Http.Request -> Eff.exc (Http.Upstream AnimeRoute.AniListResponse))
    (q0 : option str) :
  blank q0 = true ->
  let r := AnimeRoute.GET anilist q0 tt in
  Eff.outcome r = Eff.Returned
    {| Http.status := 200;
       Http.resp_headers := [(lit "content-type", lit "application/json")];
       Http.resp_body := Http.JsonResults [] |}
  /\ Eff.fetched r = [].
Proof.
  intros Hq%query_falsy_iff. unfold AnimeRoute.GET. rewrite Hq. by simpl.
Qed.

Lemma anime_blank_query_short_circuit_witness :
  blank (Some (lit "  " ++ [lf])) = true /\
  Eff.fetched (AnimeRoute.GET anilist_down (Some (lit "  " ++ [lf])) tt) = [].
Proof.
  split; [reflexivity|].
  apply (anime_blank_query_short_circuit anilist_down (Some (lit "  " ++ [lf]))).
  reflexivity.
Defined.

(** C4, as the code has it: on a successful upstream answer to a non-blank
    query, the results are, in upstream order, the normalized items: the
    title is the first of English, Romaji, Native that is present and not
    the empty string, or else Untitled; the image is the first of
    extraLarge, large that is present and not the empty string; an item with
    no such image, in particular one lacking any cover image field, is left
    out. *)
Theorem anime_results_normalized
    (anilist : Http.Request -> Eff.exc (Http.Upstream AnimeRoute.AniListResponse))
    (q0 : option str) (resp : Http.Upstream AnimeRoute.AniListResponse) :
  blank q0 = false ->
  anilist (AnimeRoute.anilist_request (trim (or_str q0 []))) = Eff.Returned resp ->
  Http.ok resp = true ->
  Eff.outcome (AnimeRoute.GET anilist q0 tt)
    = Eff.Returned (Http.json_response (omap normalize (media_of (Http.json resp))))
  /\ (forall r, r ∈ omap normalize (media_of (Http.json resp)) ->
        exists m, m ∈ media_of (Http.json resp) /\
          Http.title r = default (lit "Untitled") (first_nonempty (title_fields m)) /\
          first_nonempty (cover_fields m) = Some (Http.imageUrl r))
  /\ (forall m, lacks_cover m -> normalize m = None).
Proof.
  intros Hq%query_truthy_iff Hresp Hok. split; [|split].
  - unfold AnimeRoute.GET. rewrite Hq. cbn [negb].
    rewrite (bind_fetch_returned _ _ _ _ _ Hresp), Hok.
    cbn [negb Eff.ret Eff.outcome]. by rewrite results_of_normalize.
  - intros r (m & Hm & Hr)%list_elem_of_omap. exists m. split; [done|].
    unfold normalize in Hr.
    destruct (first_nonempty (cover_fields m)) as [u|]; [|done].
    by injection Hr as <-.
  - apply lacks_cover_normalize.
Qed.

Lemma anime_results_normalized_witness :
  Eff.outcome (AnimeRoute.GET (anilist_answers (one_item naruto)) (Some (lit "naruto")) tt)
  = Eff.Returned (Http.json_response
      [ {| Http.id := lit "20"; Http.title := lit "Naruto";
           Http.year := Some 2002%Z; Http.imageUrl := lit "http://x/y.jpg" |} ]).
Proof.
  apply (anime_results_normalized (anilist_answers (one_item naruto))
           (Some (lit "naruto"))
           {| Http.ok := true; Http.text := []; Http.json := one_item naruto |});
    reflexivity.
Defined.

(** C4 as stated fails: an item whose English title is present as the empty
    string gets its Romaji title. *)
Lemma anime_results_by_presence_counterexample :
  AnimeRoute.media_title naruto ≫= AnimeRoute.english = Some [] /\
  List.map Http.title (AnimeRoute.results_of (one_item naruto)) = [lit "Naruto"] /\
  ~ results_by_presence.
Proof.
  split; [reflexivity|]. split; [reflexivity|].
  intros H.
  destruct (H (one_item naruto) (AnimeRoute.to_result naruto)) as (m & Hm & _ & Ht & _).
  - vm_compute. left.
  - apply list_elem_of_singleton in Hm. subst m. vm_compute in Ht. discriminate.
Qed.

(** C7, as the code has it: on a non-blank query that the upstream answers
    without success, exactly one request went upstream and the answer has
    status 500; its body is the upstream's text when that is not empty, and
    the fixed text AniList search failed when it is. *)
Theorem anime_upstream_failure
    (anilist : Http.Request -> Eff.exc (Http.Upstream AnimeRoute.AniListResponse))
    (q0 : option str) (resp : Http.Upstream AnimeRoute.AniListResponse) :
  blank q0 = false ->
  let req := AnimeRoute.anilist_request (trim (or_str q0 [])) in
  anilist req = Eff.Returned resp ->
  Http.ok resp = false ->
  let r := AnimeRoute.GET anilist q0 tt in
  Eff.fetched r = [req] /\
  Eff.outcome r = Eff.Returned
    {| Http.status := 500;
       Http.resp_headers := [];
       Http.resp_body :=
         Http.RawText (match Http.text resp with
                       | [] => lit "AniList search failed"
                       | c :: t => c :: t
                       end) |}.
Proof.
  intros Hq%query_truthy_iff req Hresp Hok r. subst r.
  unfold AnimeRoute.GET. rewrite Hq. cbn [negb]. fold req.
  rewrite (bind_fetch_returned _ _ _ _ _ Hresp), Hok.
  cbn [negb Eff.ret Eff.outcome Eff.fetched]. split; [done|].
  by destruct (Http.text resp).
Qed.

Lemma anime_upstream_failure_witness :
  Eff.outcome (AnimeRoute.GET anilist_down (Some (lit "naruto")) tt)
  = Eff.Returned (Http.error_response (lit "AniList search failed")).
Proof.
  apply (anime_upstream_failure anilist_down (Some (lit "naruto"))
           {| Http.ok := false; Http.text := [];
              Http.json := {| AnimeRoute.data := None |} |}); reflexivity.
Defined.

(** C7 as stated fails: when the upstream's error text is empty, the body
    is not that text. *)
Lemma anime_error_body_counterexample :
  anilist_down (AnimeRoute.anilist_request (lit "naruto"))
    = Eff.Returned {| Http.ok := false; Http.text := [];
                      Http.json := {| AnimeRoute.data := None |} |} /\
  Eff.outcome (AnimeRoute.GET anilist_down (Some (lit "naruto")) tt)
    = Eff.Returned (Http.error_response (lit "AniList search failed")) /\
  ~ error_body_is_upstream_text.
Proof.
  split; [reflexivity|]. split; [reflexivity|].
  intros H. specialize (H anilist_down (Some (lit "naruto")) _ eq_refl eq_refl eq_refl).
  vm_compute in H. discriminate.
Qed.

(** ** The game proxy *)

Section Game.
Import Http GameRoute Apicalypse.

Lemma trim_frame pre x mid c post :
  all_white_space pre = true -> is_white_space x = false ->
  is_white_space c = false -> all_white_space post = true ->
  trim (pre ++ x :: mid ++ c :: post) = x :: mid ++ [c].
Proof.
  intros Hpre Hx Hc Hpost. unfold trim.
  rewrite trimStart_app_white, trimStart_white_free by done.
  change (x :: mid ++ c :: post) with ((x :: mid) ++ [c] ++ post).
  rewrite app_assoc, trimEnd_app_white, trimEnd_snoc by done. done.
Qed.

Lemma apicalypse_body_render q : apicalypse_body q = render (game_query q).
Proof.
  unfold apicalypse_body, render, game_query.
  cbn [List.map render_statement render_value join join_lf].
  set (s := strip_quotes q). clearbody s.
  set (rest := dq :: lit ";" ++ lf
                 :: lit "    fields name, first_release_date, cover.image_id;"
                 ++ lf :: lit "    where version_parent = null;"
                 ++ lf :: lit "    limit 24").
  transitivity (trim ((lf :: lit "    ")
                      ++ 115%N :: (lit "earch " ++ dq :: s ++ rest)
                      ++ 59%N :: [lf; 32%N; 32%N])).
  - f_equal. subst rest. simpl. rewrite <- !app_assoc. reflexivity.
  - rewrite trim_frame by reflexivity.
    subst rest. simpl. rewrite <- !app_assoc. reflexivity.
Qed.

Lemma GET_after_token w q0 cache tok :
  blank q0 = false ->
  Eff.outcome (getTwitchAppToken w cache) = Eff.Returned tok ->
  Eff.fetched (GET w q0 cache) =
    Eff.fetched (getTwitchAppToken w cache)
    ++ [igdb_request (default [] (TWITCH_CLIENT_ID (env w))) tok
          (apicalypse_body (trim (or_str q0 [])))].
Proof.
  intros Hq%query_truthy_iff Htok. unfold GET. rewrite Hq.
  cbn [negb]. unfold Eff.bind at 1. rewrite Htok.
  cbn [Eff.fetched Eff.state_after]. f_equal.
  apply fetched_bind_fetch. intros resp. by destruct (ok resp).
Qed.

Lemma passes_game_query q e :
  passes (game_query q) e = true <-> field_of e (lit "version_parent") = Null.
Proof.
  unfold passes, game_query. cbn [forallb holds]. rewrite andb_true_r.
  destruct (field_of e (lit "version_parent")); simpl; split; congruence.
Qed.

End Game.

(** C10: a game search whose [q] parameter is absent, empty or white space
    only is answered with the empty result list whatever the configuration
    is: nothing is thrown, no request goes upstream (no token is fetched)
    and the token cache is left as it was. *)
Theorem game_blank_query_short_circuit
    (w : GameRoute.World) (cache : GameRoute.Cache) (q0 : option str) :
  blank q0 = true ->
  GameRoute.GET w q0 cache =
    {| Eff.state_after := cache;
       Eff.fetched := [];
       Eff.outcome := Eff.Returned
         {| Http.status := 200;
            Http.resp_headers := [(lit "content-type", lit "application/json")];
            Http.resp_body := Http.JsonResults [] |} |}.
Proof.
  intros Hq%query_falsy_iff. unfold GameRoute.GET. by rewrite Hq.
Qed.

Lemma game_blank_query_short_circuit_witness :
  GameRoute.configured (GameRoute.TWITCH_CLIENT_ID (GameRoute.env (world no_credentials 0 twitch_down))) = None /\
  Eff.outcome (GameRoute.GET (world no_credentials 0 twitch_down) None None)
  = Eff.Returned (Http.json_response []).
Proof.
  split; [reflexivity|].
  by rewrite (game_blank_query_short_circuit (world no_credentials 0 twitch_down) None None).
Defined.

(** C2, as the code has it: with both credentials configured (set and not
    empty), a cached token that expires more than 60 seconds after the call
    is returned as it is, with no request made and the cache untouched;
    otherwise exactly one client-credentials request is made, and when it
    succeeds its token is cached with expiry [now + expires_in * 1000] and
    returned, while when it is refused the call throws the upstream's text
    (or a fixed text when that is empty), when it gets no answer the call
    throws as well, and in both cases the cache is left as it was. *)
Theorem token_cache_policy
    (w : GameRoute.World) (cache : GameRoute.Cache) (clientId clientSecret : str) :
  GameRoute.TWITCH_CLIENT_ID (GameRoute.env w) = Some clientId -> clientId <> [] ->
  GameRoute.TWITCH_CLIENT_SECRET (GameRoute.env w) = Some clientSecret -> clientSecret <> [] ->
  let r := GameRoute.getTwitchAppToken w cache in
  let req := GameRoute.token_request clientId clientSecret in
  (forall t, cache = Some t ->
     (GameRoute.now w + 60000 < GameRoute.expiresAt t)%Z ->
     r = {| Eff.state_after := cache; Eff.fetched := [];
            Eff.outcome := Eff.Returned (GameRoute.token t) |})
  /\
  ((forall t, cache = Some t ->
      (GameRoute.expiresAt t <= GameRoute.now w + 60000)%Z) ->
     Eff.fetched r = [req] /\
     (lit "grant_type", lit "client_credentials")
       ∈ Http.searchParams (Http.url req) /\
     (forall resp, GameRoute.twitch w req = Eff.Returned resp ->
        Http.ok resp = true ->
        Eff.outcome r = Eff.Returned (GameRoute.access_token (Http.json resp)) /\
        Eff.state_after r =
          Some {| GameRoute.token := GameRoute.access_token (Http.json resp);
                  GameRoute.expiresAt :=
                    (GameRoute.now w + GameRoute.expires_in (Http.json resp) * 1000)%Z |}) /\
     (forall resp, GameRoute.twitch w req = Eff.Returned resp ->
        Http.ok resp = false ->
        Eff.outcome r = Eff.Thrown (match Http.text resp with
                                    | [] => lit "Failed to get Twitch token"
                                    | c :: s => c :: s
                                    end) /\
        Eff.state_after r = cache) /\
     (forall msg, GameRoute.twitch w req = Eff.Thrown msg ->
        Eff.outcome r = Eff.Thrown msg /\ Eff.state_after r = cache)).
Proof.
  intros Hid Hid' Hsec Hsec' r req. subst r.
  unfold GameRoute.getTwitchAppToken. rewrite Hid, Hsec.
  destruct clientId as [|c1 s1]; [done|]. destruct clientSecret as [|c2 s2]; [done|].
  cbn [GameRoute.configured truthy]. split.
  - intros t -> Ht. rewrite bind_get. cbn.
    destruct (Z.gtb_spec (GameRoute.expiresAt t - 60000) (GameRoute.now w)); [done|lia].
  - intros Hstale.
    assert (GameRoute.still_valid cache (GameRoute.now w) = None) as Hv.
    { destruct cache as [t|]; [|done]. simpl.
      specialize (Hstale t eq_refl).
      destruct (Z.gtb_spec (GameRoute.expiresAt t - 60000) (GameRoute.now w)); [lia|done]. }
    rewrite bind_get, Hv. unfold GameRoute.fetch_fresh_token. fold req.
    split; [|split; [|split; [|split]]].
    + apply fetched_bind_fetch. intros resp. by destruct (Http.ok resp).
    + unfold req. cbn. do 2 right. left.
    + intros resp Hresp Hok.
      rewrite (bind_fetch_returned _ _ _ _ _ Hresp), Hok. by cbn.
    + intros resp Hresp Hok.
      rewrite (bind_fetch_returned _ _ _ _ _ Hresp), Hok.
      cbn [negb Eff.throw Eff.outcome Eff.state_after]. split; [|done].
      by destruct (Http.text resp).
    + intros msg Hmsg. by rewrite (bind_fetch_thrown _ _ _ _ _ Hmsg).
Qed.

Lemma token_cache_policy_witness :
  GameRoute.getTwitchAppToken (world credentials 0 twitch_down) (Some old_token)
  = {| Eff.state_after := Some old_token; Eff.fetched := [];
       Eff.outcome := Eff.Returned (lit "old") |}
  /\
  Eff.state_after (GameRoute.getTwitchAppToken (world credentials 440000 twitch_up) (Some old_token))
  = Some {| GameRoute.token := lit "fresh"; GameRoute.expiresAt := 4040000 |}.
Proof.
  pose proof (token_cache_policy (world credentials 0 twitch_down)
                (Some old_token) (lit "id") (lit "secret")
                eq_refl ltac:(discriminate) eq_refl ltac:(discriminate))
    as Hreuse.
  pose proof (token_cache_policy (world credentials 440000 twitch_up)
                (Some old_token) (lit "id") (lit "secret")
                eq_refl ltac:(discriminate) eq_refl ltac:(discriminate))
    as Hrefresh.
  cbv zeta in Hreuse, Hrefresh.
  destruct Hreuse as [Hreuse _]. destruct Hrefresh as [_ Hrefresh].
  split.
  - apply (Hreuse old_token eq_refl). simpl. lia.
  - destruct Hrefresh as (_ & _ & Hok & _).
    + intros t [= <-]. simpl. lia.
    + apply (Hok _ eq_refl). reflexivity.
Defined.

(** C2 as stated fails where the code guards: without credentials the call
    throws before it looks at the cache or asks for a token, and when the
    exchange is refused nothing is cached. *)
Lemma token_reuse_counterexample :
  GameRoute.getTwitchAppToken (world no_credentials 0 twitch_up) None
  = {| Eff.state_after := None; Eff.fetched := [];
       Eff.outcome := Eff.Thrown GameRoute.missing_credentials |}
  /\ ~ reused_or_refreshed (world no_credentials 0 twitch_up) None
  /\ Eff.outcome (GameRoute.getTwitchAppToken (world no_credentials 0 twitch_up) (Some old_token))
     = Eff.Thrown GameRoute.missing_credentials
  /\ ~ reused_or_refreshed (world no_credentials 0 twitch_up) (Some old_token)
  /\ GameRoute.getTwitchAppToken (world credentials 0 twitch_down) None
     = {| Eff.state_after := None;
          Eff.fetched := [GameRoute.token_request (lit "id") (lit "secret")];
          Eff.outcome := Eff.Thrown (lit "invalid client") |}
  /\ ~ reused_or_refreshed (world credentials 0 twitch_down) None.
Proof.
  repeat split; try reflexivity.
  - intros [_ H]. destruct H as (req & resp & Hf & _); [done|]. discriminate Hf.
  - intros [H _]. destruct (H old_token eq_refl) as [Ho _]; [by vm_compute|].
    discriminate Ho.
  - intros [_ H]. destruct H as (req & resp & _ & _ & _ & Ho & _); [done|].
    discriminate Ho.
Qed.

(** C1, as the code has it: for a game search with a non-blank query whose
    token was obtained, the last request sent upstream carries as its text
    the statements [game_query q] ([q] the trimmed query): a search for [q]
    without its double quotes, the three fields, one filter and the limit.
    The request is limited to 24 results and lets through exactly the
    records whose [version_parent] is null, so a version of another game is
    excluded; no statement of the request filters on anything else. *)
Theorem game_request_limit_and_filter
    (w : GameRoute.World) (cache : GameRoute.Cache) (q0 : option str) (tok : str) :
  blank q0 = false ->
  Eff.outcome (GameRoute.getTwitchAppToken w cache) = Eff.Returned tok ->
  let q := trim (or_str q0 []) in
  (exists req,
     last (Eff.fetched (GameRoute.GET w q0 cache)) = Some req /\
     Http.url req = {| Http.base := lit "https://api.igdb.com/v4/games";
                       Http.searchParams := [] |} /\
     Http.body req = Http.PlainText (Apicalypse.render (Apicalypse.game_query q))) /\
  Apicalypse.limit_of (Apicalypse.game_query q) = Some 24%Z /\
  Apicalypse.excludes (Apicalypse.game_query q) Apicalypse.is_version_variant /\
  (forall e, Apicalypse.passes (Apicalypse.game_query q) e = true <->
             Apicalypse.field_of e (lit "version_parent") = Apicalypse.Null).
Proof.
  intros Hq Htok q. split; [|split; [done|split]].
  - eexists. rewrite (GET_after_token _ _ _ _ Hq Htok), last_snoc.
    split; [done|]. split; [done|].
    cbn [GameRoute.igdb_request Http.body]. by rewrite apicalypse_body_render.
  - intros e He. destruct (Apicalypse.passes _ e) eqn:Hp; [|done].
    by apply passes_game_query in Hp.
  - apply passes_game_query.
Qed.

Lemma game_request_limit_and_filter_witness :
  exists req,
    last (Eff.fetched (GameRoute.GET (world credentials 0 twitch_up)
                         (Some (lit " zelda ")) None)) = Some req /\
    Http.body req =
      Http.PlainText (Apicalypse.render (Apicalypse.game_query (lit "zelda"))).
Proof.
  destruct (game_request_limit_and_filter (world credentials 0 twitch_up) None
              (Some (lit " zelda ")) (lit "fresh") eq_refl eq_refl)
    as [(req & Hlast & _ & Hbody) _].
  exists req. split; [exact Hlast | exact Hbody].
Defined.

(** C1 as stated fails: the request has no filter against downloadable
    content; a DLC record with no version parent passes it. *)
Lemma game_request_dlc_counterexample :
  Apicalypse.is_dlc dlc_entry /\
  Apicalypse.passes (Apicalypse.game_query (lit "zelda")) dlc_entry = true /\
  ~ request_as_stated.
Proof.
  split; [reflexivity|]. split; [reflexivity|].
  intros H. destruct (H (lit "zelda")) as (_ & Hdlc & _); [discriminate|].
  specialize (Hdlc dlc_entry eq_refl). discriminate Hdlc.
Qed.

(** ** The chart editor *)

Section EditorProperties.
Import Editor.

Lemma array_get_set_eq (a : array) i v : array_get (array_set a i v) i = Some v.
Proof.
  unfold array_get, array_set. case_decide as Hi.
  - by rewrite list_lookup_insert_eq.
  - rewrite app_assoc, list_lookup_middle; [done|].
    rewrite length_app, length_replicate. lia.
Qed.

Lemma array_get_set_ne (a : array) i j v :
  j <> i -> array_get (array_set a i v) j = array_get a j.
Proof.
  intros Hj. unfold array_get, array_set. case_decide as Hi.
  - by rewrite list_lookup_insert_ne.
  - destruct (decide (j < length a)) as [Hlt|Hge].
    + by rewrite lookup_app_l.
    + rewrite (lookup_ge_None_2 a j) by lia.
      rewrite lookup_app_r by lia.
      destruct (decide (j < i)) as [Hji|Hji].
      * rewrite lookup_app_l by (rewrite length_replicate; lia).
        by rewrite lookup_replicate_2 by lia.
      * rewrite lookup_ge_None_2; [done|].
        rewrite length_app, length_replicate. simpl. lia.
Qed.

Lemma length_array_set (a : array) i v :
  i < length a -> length (array_set a i v) = length a.
Proof.
  intros Hi. unfold array_set. rewrite decide_True by done. apply length_insert.
Qed.

Lemma invariant_updateSelected_of sel p st :
  (forall i, sel = Some i -> i < 18) ->
  invariant st -> invariant (updateSelected_of sel p st).
Proof.
  intros Hsel [Hc Hs Hr]. destruct sel as [i|]; [|done].
  split; cbn; [|done..].
  rewrite length_array_set; [done|]. rewrite Hc. by apply Hsel.
Qed.

Lemma elem_of_finish_reader i j rs : j ∈ finish_reader i rs -> j ∈ rs.
Proof.
  induction rs as [|r rs IH]; simpl; [done|].
  case_decide as Hri; [by right|].
  intros [->|Hj]%elem_of_cons; [left | right; auto].
Qed.

Lemma invariant_set_readers f st :
  (forall j, j ∈ f (readers st) -> j < 18) ->
  invariant st -> invariant (set_readers f st).
Proof. intros Hf [Hc Hs Hr]. by split. Qed.

Lemma invariant_initial : invariant initial.
Proof. split; cbn; [done|done|]. intros i Hi. by apply elem_of_nil in Hi. Qed.

Lemma invariant_handle st ev :
  invariant st -> enabled ev st -> invariant (handle ev st).
Proof.
  intros Hinv Hen. destruct ev; cbn [handle enabled] in *.
  - destruct Hinv as [Hc Hs Hr]. split; cbn; [done| |done].
    intros j [= <-]. exact Hen.
  - apply invariant_updateSelected_of; [apply (inv_selected _ Hinv) | done].
  - by destruct Hinv.
  - unfold handleUploadImage. destruct (selectedIndex st) as [i|] eqn:Hi; [|done].
    destruct (negb _).
    + by destruct Hinv.
    + apply invariant_set_readers; [|done].
      intros j [Hj| ->%list_elem_of_singleton]%elem_of_app.
      * by apply (inv_readers _ Hinv).
      * by apply (inv_selected _ Hinv).
  - unfold reader_onload. apply invariant_updateSelected_of.
    + intros j [= <-]. by apply (inv_readers _ Hinv).
    + apply invariant_set_readers; [|done].
      intros j Hj%elem_of_finish_reader. by apply (inv_readers _ Hinv).
  - unfold reader_onerror.
    assert (invariant (set_readers (finish_reader i) st)) as [Hc Hs Hr].
    { apply invariant_set_readers; [|done].
      intros j Hj%elem_of_finish_reader. by apply (inv_readers _ Hinv). }
    by split.
  - apply invariant_updateSelected_of; [apply (inv_selected _ Hinv) | done].
  - by destruct Hinv.
  - by destruct Hinv.
  - destruct (isSearchOpen st); by destruct Hinv.
  - by destruct Hinv.
  - by destruct Hinv.
  - unfold runSearch. destruct (negb _); by destruct Hinv.
  - destruct o; by destruct Hinv.
  - unfold pickResult. destruct (selectedIndex st) as [i|] eqn:Hi; [|done].
    assert (invariant (updateSelected (image_patch (Some (Http.imageUrl r))) st))
      as [Hc Hs Hr].
    { apply invariant_updateSelected_of; [apply (inv_selected _ Hinv) | done]. }
    by split.
  - by destruct Hinv.
  - unfold exportPng_settled. destruct rendered; by destruct Hinv.
Qed.

Lemma invariant_reachable st : reachable st -> invariant st.
Proof.
  induction 1 as [|st ev _ IH Hen]; [apply invariant_initial|].
  by apply invariant_handle.
Qed.

End EditorProperties.

(** C5: whatever the cell array and the selected index [i] are, patching
    the selected cell's label to [X] makes [cells[i].label] equal to [X],
    keeps that cell's image, and leaves [cells[j]] as it was for every
    other index [j]. *)
Theorem patch_label_frame (st : Editor.State) (i : nat) (X : str) :
  Editor.selectedIndex st = Some i ->
  let st' := Editor.updateSelected (Editor.label_patch X) st in
  Editor.array_get (Editor.cells st') i ≫= Editor.label = Some X /\
  Editor.array_get (Editor.cells st') i ≫= Editor.imageUrl
    = Editor.array_get (Editor.cells st) i ≫= Editor.imageUrl /\
  (forall j, j <> i ->
     Editor.array_get (Editor.cells st') j = Editor.array_get (Editor.cells st) j).
Proof.
  intros Hi st'. subst st'. unfold Editor.updateSelected. rewrite Hi. cbn.
  rewrite array_get_set_eq. cbn. split; [done|]. split; [done|].
  intros j Hj. by apply array_get_set_ne.
Qed.

Lemma patch_label_frame_witness :
  Editor.array_get
    (Editor.cells (Editor.handle (Editor.EditLabel (lit "X")) after_select_3)) 3
    ≫= Editor.label = Some (lit "X") /\
  Editor.array_get
    (Editor.cells (Editor.handle (Editor.EditLabel (lit "X")) after_select_3)) 4
  = Some {| Editor.label := Some (lit "Favorite Villain"); Editor.imageUrl := None |}.
Proof.
  destruct (patch_label_frame after_select_3 3 (lit "X") eq_refl) as (Hl & _ & Hf).
  split; [exact Hl|].
  etransitivity; [apply (Hf 4); discriminate | reflexivity].
Defined.

(** C6: picking a search result [r] while cell [i] is selected makes
    [cells[i].imageUrl] the very string [r.imageUrl], keeps the cell's
    label and the other cells, and closes the modal. *)
Theorem pick_result_assigns_image
    (st : Editor.State) (i : nat) (r : Http.SearchResult) :
  Editor.selectedIndex st = Some i ->
  let st' := Editor.pickResult r st in
  Editor.array_get (Editor.cells st') i ≫= Editor.imageUrl = Some (Http.imageUrl r) /\
  Editor.array_get (Editor.cells st') i ≫= Editor.label
    = Editor.array_get (Editor.cells st) i ≫= Editor.label /\
  (forall j, j <> i ->
     Editor.array_get (Editor.cells st') j = Editor.array_get (Editor.cells st) j) /\
  Editor.isSearchOpen st' = false.
Proof.
  intros Hi st'. subst st'. unfold Editor.pickResult, Editor.updateSelected.
  rewrite Hi. cbn. rewrite array_get_set_eq. cbn.
  split; [done|]. split; [done|]. split; [|done].
  intros j Hj. by apply array_get_set_ne.
Qed.

Lemma pick_result_assigns_image_witness :
  let st' := Editor.handle (Editor.ClickResult picked)
               (Editor.handle Editor.OpenSearch after_select_3) in
  Editor.array_get (Editor.cells st') 3 ≫= Editor.imageUrl = Some (lit "http://x/y.jpg") /\
  Editor.isSearchOpen st' = false.
Proof.
  destruct (pick_result_assigns_image
              (Editor.handle Editor.OpenSearch after_select_3) 3 picked eq_refl)
    as (Hi & _ & _ & Hm).
  split; [exact Hi | exact Hm].
Defined.

(** C8: for a file whose MIME type does not start with [image/], uploaded
    while a cell is selected, the handler changes no cell (so the selected
    cell keeps its image), starts no reader, and shows the rejection
    message in an alert. *)
Theorem upload_rejects_non_image
    (st : Editor.State) (i : nat) (f : Editor.File) :
  Editor.selectedIndex st = Some i ->
  startsWith (Editor.type f) (lit "image/") = false ->
  let st' := Editor.handleUploadImage f st in
  Editor.cells st' = Editor.cells st /\
  Editor.array_get (Editor.cells st') i ≫= Editor.imageUrl
    = Editor.array_get (Editor.cells st) i ≫= Editor.imageUrl /\
  Editor.readers st' = Editor.readers st /\
  Editor.alerts st' =
    Editor.alerts st ++ [lit "Please upload an image file (png/jpg/webp/etc)."].
Proof.
  intros Hi Hty st'. subst st'. unfold Editor.handleUploadImage.
  by rewrite Hi, Hty.
Qed.

Lemma upload_rejects_non_image_witness :
  Editor.alerts (Editor.handle (Editor.ChooseFile {| Editor.type := lit "text/plain" |})
                   after_select_3)
  = [lit "Please upload an image file (png/jpg/webp/etc)."].
Proof.
  destruct (upload_rejects_non_image after_select_3 3
              {| Editor.type := lit "text/plain" |} eq_refl eq_refl)
    as (_ & _ & _ & Ha).
  exact Ha.
Defined.

(** C9: in every reachable state of the editor there are 18 cells and the
    selected index is null or below 18; this is part of an invariant that
    holds initially and that every enabled event (select, patch, clear,
    upload and its reader's events, pick result, and the others) keeps. *)
Theorem selection_invariant :
  (forall st, Editor.reachable st ->
     length (Editor.cells st) = 18 /\
     (Editor.selectedIndex st = None \/
      exists i, Editor.selectedIndex st = Some i /\ 0 <= i < 18)) /\
  invariant Editor.initial /\
  (forall st ev, invariant st -> Editor.enabled ev st ->
     invariant (Editor.handle ev st)).
Proof.
  split; [|split; [apply invariant_initial | apply invariant_handle]].
  intros st [Hc Hs Hr]%invariant_reachable. split; [done|].
  destruct (Editor.selectedIndex st) as [i|]; [right | by left].
  exists i. split; [done|]. specialize (Hs i eq_refl). lia.
Qed.

Lemma selection_invariant_witness :
  length (Editor.cells (Editor.handle (Editor.EditLabel (lit "X")) after_select_3)) = 18.
Proof.
  destruct selection_invariant as [Hreach _].
  refine (proj1 (Hreach _ _)).
  apply Editor.reachable_step; [|exact I].
  apply Editor.reachable_step; [apply Editor.reachable_initial|].
  simpl. unfold Editor.rows, Editor.cols. lia.
Defined.

(** * Further properties *)

(** ** Running one computation after another *)

Section Sequencing.
Context {S A B : Type}.
Implicit Types (m : Eff.M S A) (k : A -> Eff.M S B).

Lemma bind_returned m k s a :
  Eff.outcome (m s) = Eff.Returned a ->
  Eff.bind m k s =
    {| Eff.state_after := Eff.state_after (k a (Eff.state_after (m s)));
       Eff.fetched := Eff.fetched (m s) ++ Eff.fetched (k a (Eff.state_after (m s)));
       Eff.outcome := Eff.outcome (k a (Eff.state_after (m s))) |}.
Proof. intros H. unfold Eff.bind. by rewrite H. Qed.

Lemma bind_thrown m k s msg :
  Eff.outcome (m s) = Eff.Thrown msg ->
  Eff.bind m k s =
    {| Eff.state_after := Eff.state_after (m s);
       Eff.fetched := Eff.fetched (m s);
       Eff.outcome := Eff.Thrown msg |}.
Proof. intros H. unfold Eff.bind. by rewrite H. Qed.

End Sequencing.

(** ** The game proxy, continued *)

Section GameMore.
Import Http GameRoute Apicalypse.

Lemma apicalypse_body_shape q :
  apicalypse_body q = lit "search " ++ dq :: strip_quotes q ++ dq :: body_tail.
Proof.
  rewrite apicalypse_body_render. unfold render, game_query, body_tail.
  cbn [List.map render_statement render_value join].
  set (s := strip_quotes q). clearbody s.
  simpl. rewrite <- !app_assoc. reflexivity.
Qed.

Lemma quotes_strip_quotes q : quotes (strip_quotes q) = 0.
Proof.
  unfold quotes. induction q as [|c q IH]; [done|]. cbn [strip_quotes].
  destruct (N.eqb_spec c dq) as [->|Hc]; [done|].
  by rewrite count_occ_cons_neq.
Qed.

Lemma configured_Some v s : configured v = Some s <-> v = Some s /\ s <> [].
Proof.
  destruct v as [[|c t]|]; simpl.
  - split; [done|]. by intros [[= <-] H].
  - split; [by intros [= <-] | by intros [? _]].
  - split; [done | by intros [? _]].
Qed.

Lemma configured_credentials e clientId clientSecret :
  has_credentials e clientId clientSecret ->
  configured (TWITCH_CLIENT_ID e) = Some clientId /\
  configured (TWITCH_CLIENT_SECRET e) = Some clientSecret.
Proof. intros (H1 & H2 & H3 & H4). split; by apply configured_Some. Qed.

Lemma still_valid_Some cache now t :
  cache = Some t -> (now + 60000 < expiresAt t)%Z ->
  still_valid cache now = Some t.
Proof.
  intros -> Ht. simpl.
  destruct (Z.gtb_spec (expiresAt t - 60000) now); [done|lia].
Qed.

Lemma still_valid_None cache now :
  (forall t, cache = Some t -> (expiresAt t <= now + 60000)%Z) ->
  still_valid cache now = None.
Proof.
  intros H. destruct cache as [t|]; [|done]. simpl.
  specialize (H t eq_refl).
  destruct (Z.gtb_spec (expiresAt t - 60000) now); [lia|done].
Qed.

Lemma token_step_reuse w cache clientId clientSecret t :
  has_credentials (env w) clientId clientSecret ->
  still_valid cache (now w) = Some t ->
  getTwitchAppToken w cache =
    {| Eff.state_after := cache; Eff.fetched := [];
       Eff.outcome := Eff.Returned (token t) |}.
Proof.
  intros [Hid Hsec]%configured_credentials Hv.
  unfold getTwitchAppToken. by rewrite Hid, Hsec, bind_get, Hv.
Qed.

Lemma token_step_refresh w cache clientId clientSecret resp :
  has_credentials (env w) clientId clientSecret ->
  still_valid cache (now w) = None ->
  twitch w (token_request clientId clientSecret) = Eff.Returned resp ->
  ok resp = true ->
  getTwitchAppToken w cache =
    {| Eff.state_after :=
         Some {| token := access_token (json resp);
                 expiresAt := (now w + expires_in (json resp) * 1000)%Z |};
       Eff.fetched := [token_request clientId clientSecret];
       Eff.outcome := Eff.Returned (access_token (json resp)) |}.
Proof.
  intros [Hid Hsec]%configured_credentials Hv Hresp Hok.
  unfold getTwitchAppToken. rewrite Hid, Hsec, bind_get, Hv.
  unfold fetch_fresh_token.
  by rewrite (bind_fetch_returned _ _ _ _ _ Hresp), Hok.
Qed.

Lemma token_step_no_credentials w cache :
  configured (TWITCH_CLIENT_ID (env w)) = None \/
  configured (TWITCH_CLIENT_SECRET (env w)) = None ->
  getTwitchAppToken w cache =
    {| Eff.state_after := cache; Eff.fetched := [];
       Eff.outcome := Eff.Thrown missing_credentials |}.
Proof.
  unfold getTwitchAppToken. intros [H|H]; rewrite H; [done|].
  by destruct (configured (TWITCH_CLIENT_ID (env w))).
Qed.

Lemma GET_unfold w q0 cache :
  blank q0 = false ->
  GET w q0 cache =
    Eff.bind (getTwitchAppToken w) (search_step w (trim (or_str q0 []))) cache.
Proof. intros Hq%query_truthy_iff. unfold GET. by rewrite Hq. Qed.

Lemma search_step_state w q tok s : Eff.state_after (search_step w q tok s) = s.
Proof.
  unfold search_step, Eff.bind, Eff.fetch. cbn.
  destruct (igdb w _) as [resp|msg]; cbn; [|done]. by destruct (ok resp).
Qed.

Lemma search_step_fetched w q tok s :
  Eff.fetched (search_step w q tok s) =
    [igdb_request (default [] (TWITCH_CLIENT_ID (env w))) tok (apicalypse_body q)].
Proof.
  unfold search_step. apply fetched_bind_fetch. intros resp. by destruct (ok resp).
Qed.

Lemma game_to_result_normalize g :
  (if truthy (imageUrl (to_result g)) then Some (to_result g) else None)
  = normalize_game g.
Proof.
  unfold to_result, normalize_game, image_url, cover_url. cbn [imageUrl].
  destruct (cover g ≫= image_id) as [[|c s]|]; done.
Qed.

Lemma game_results_of_normalize games :
  results_of games = omap normalize_game games.
Proof.
  unfold results_of. induction games as [|g games IH]; [done|].
  rewrite omap_cons, <- game_to_result_normalize, <- IH.
  cbn [List.map List.filter].
  by destruct (truthy (imageUrl (to_result g))).
Qed.

End GameMore.

Section TrimMore.

Lemma trimStart_fixed s :
  match s with [] => True | c :: _ => is_white_space c = false end ->
  trimStart s = s.
Proof. destruct s as [|c s]; [done|]. simpl. by intros ->. Qed.

Lemma trimStart_starts s :
  match trimStart s with [] => True | c :: _ => is_white_space c = false end.
Proof. by destruct (trimStart_head s) as [->|(c & r & -> & Hc)]. Qed.

Lemma trimStart_suffix s : exists w, s = w ++ trimStart s.
Proof.
  induction s as [|c s [w IH]]; [by exists []|]. simpl.
  destruct (is_white_space c); [|by exists []].
  exists (c :: w). simpl. by rewrite <- IH.
Qed.

Lemma trim_idempotent s : trim (trim s) = trim s.
Proof.
  unfold trim, trimEnd.
  set (u := trimStart s). set (v := trimStart (rev u)).
  assert (trimStart (rev v) = rev v) as Hv.
  { apply trimStart_fixed.
    destruct (trimStart_suffix (rev u)) as [w Hw]. fold v in Hw.
    apply (f_equal (@rev char)) in Hw.
    rewrite rev_involutive, rev_app_distr in Hw.
    pose proof (trimStart_starts s) as Hu. fold u in Hu. rewrite Hw in Hu.
    by destruct (rev v). }
  rewrite Hv, rev_involutive. f_equal.
  apply trimStart_fixed, trimStart_starts.
Qed.

End TrimMore.

Section GameExtras.
Import Http GameRoute Apicalypse.

(** X1: whatever the query is, the request text is the search statement
    with the query stripped of its double quotes, followed by the fixed
    statements; it holds exactly two double quotes, those that delimit the
    search string, so the user's text cannot close that string. *)
Theorem request_body_two_quotes (q : str) :
  apicalypse_body q = lit "search " ++ dq :: strip_quotes q ++ dq :: body_tail /\
  quotes (strip_quotes q) = 0 /\
  quotes (apicalypse_body q) = 2.
Proof.
  split; [apply apicalypse_body_shape|]. split; [apply quotes_strip_quotes|].
  rewrite apicalypse_body_shape. unfold quotes.
  rewrite count_occ_app, count_occ_cons_eq, count_occ_app, count_occ_cons_eq by done.
  pose proof (quotes_strip_quotes q) as Hs.
  change (count_occ N.eq_dec (strip_quotes q) dq) with (quotes (strip_quotes q)).
  rewrite Hs. reflexivity.
Qed.

(** X2: when the token step returns and the games database answers with
    success, the results are, in upstream order, one per game that has a
    cover with a non-empty image identifier: its title is the game's name
    as it is and its image the cover URL built from the identifier; the
    games without such a cover are left out, and the token cache is what
    the token step left. *)
Theorem game_results_normalized
    (w : World) (cache : Cache) (q0 : option str) (tok : str)
    (resp : Upstream (list IGDBGame)) :
  blank q0 = false ->
  Eff.outcome (getTwitchAppToken w cache) = Eff.Returned tok ->
  igdb w (igdb_request (default [] (TWITCH_CLIENT_ID (env w))) tok
            (apicalypse_body (trim (or_str q0 [])))) = Eff.Returned resp ->
  ok resp = true ->
  let r := GET w q0 cache in
  Eff.outcome r = Eff.Returned (json_response (omap normalize_game (json resp))) /\
  Eff.state_after r = Eff.state_after (getTwitchAppToken w cache) /\
  Forall (fun x => exists g image,
            g ∈ json resp /\ cover g ≫= image_id = Some image /\ image <> [] /\
            title x = name g /\ imageUrl x = cover_url image)
         (omap normalize_game (json resp)).
Proof.
  intros Hq Htok Hresp Hok r. subst r.
  rewrite (GET_unfold _ _ _ Hq), (bind_returned _ _ _ _ Htok).
  cbn [Eff.outcome Eff.state_after]. rewrite search_step_state.
  split; [|split; [done|]].
  - unfold search_step. rewrite (bind_fetch_returned _ _ _ _ _ Hresp), Hok.
    cbn [negb Eff.ret Eff.outcome]. by rewrite game_results_of_normalize.
  - apply Forall_forall. intros x (g & Hg & Hx)%list_elem_of_omap.
    unfold normalize_game in Hx.
    destruct (cover g ≫= image_id) as [[|c s]|] eqn:Hc; try done.
    injection Hx as <-. by exists g, (c :: s).
Qed.

Lemma game_results_normalized_witness :
  Eff.outcome (GET (world_with (igdb_answers [coverless; zelda]) credentials 0 twitch_up)
                 (Some (lit "zelda")) None)
  = Eff.Returned (json_response
      [ {| id := lit "1022"; title := lit "The Legend of Zelda";
           year := Some 1986%Z;
           imageUrl := lit "https://images.igdb.com/igdb/image/upload/t_cover_big/co1uii.jpg" |} ]).
Proof.
  destruct (game_results_normalized
              (world_with (igdb_answers [coverless; zelda]) credentials 0 twitch_up)
              None (Some (lit "zelda")) (lit "fresh")
              {| ok := true; text := []; json := [coverless; zelda] |}
              eq_refl eq_refl eq_refl eq_refl) as [Ho _].
  exact Ho.
Defined.

(** X3: when the token step returns and the games database answers
    without success, the search is answered with status 500 and the
    upstream's text, or the fixed text IGDB search failed when that text is
    empty; the token obtained stays cached. *)
Theorem game_upstream_failure
    (w : World) (cache : Cache) (q0 : option str) (tok : str)
    (resp : Upstream (list IGDBGame)) :
  blank q0 = false ->
  Eff.outcome (getTwitchAppToken w cache) = Eff.Returned tok ->
  igdb w (igdb_request (default [] (TWITCH_CLIENT_ID (env w))) tok
            (apicalypse_body (trim (or_str q0 [])))) = Eff.Returned resp ->
  ok resp = false ->
  let r := GET w q0 cache in
  Eff.outcome r = Eff.Returned
    {| status := 500; resp_headers := [];
       resp_body := RawText (match text resp with
                             | [] => lit "IGDB search failed"
                             | c :: s => c :: s
                             end) |} /\
  Eff.state_after r = Eff.state_after (getTwitchAppToken w cache).
Proof.
  intros Hq Htok Hresp Hok r. subst r.
  rewrite (GET_unfold _ _ _ Hq), (bind_returned _ _ _ _ Htok).
  cbn [Eff.outcome Eff.state_after]. rewrite search_step_state.
  split; [|done].
  unfold search_step. rewrite (bind_fetch_returned _ _ _ _ _ Hresp), Hok.
  cbn [negb Eff.ret Eff.outcome]. by destruct (text resp).
Qed.

Lemma game_upstream_failure_witness :
  Eff.outcome (GET (world_with igdb_down credentials 0 twitch_up)
                 (Some (lit "zelda")) None)
  = Eff.Returned (error_response (lit "Too Many Requests")) /\
  Eff.state_after (GET (world_with igdb_down credentials 0 twitch_up)
                     (Some (lit "zelda")) None)
  = Some {| token := lit "fresh"; expiresAt := 3600000 |}.
Proof.
  destruct (game_upstream_failure
              (world_with igdb_down credentials 0 twitch_up)
              None (Some (lit "zelda")) (lit "fresh")
              {| ok := false; text := lit "Too Many Requests"; json := [] |}
              eq_refl eq_refl eq_refl eq_refl) as [Ho Hs].
  split; [exact Ho | exact Hs].
Defined.

(** X4: a search with a non-blank query while a credential is unset or
    empty throws the configuration error: no request goes upstream, not
    even with a valid token in the cache, and the cache is left as it
    was. *)
Theorem game_search_without_credentials
    (w : World) (cache : Cache) (q0 : option str) :
  blank q0 = false ->
  (forall s, TWITCH_CLIENT_ID (env w) = Some s -> s = []) \/
  (forall s, TWITCH_CLIENT_SECRET (env w) = Some s -> s = []) ->
  GET w q0 cache =
    {| Eff.state_after := cache; Eff.fetched := [];
       Eff.outcome := Eff.Thrown missing_credentials |}.
Proof.
  intros Hq Hno.
  assert (configured (TWITCH_CLIENT_ID (env w)) = None \/
          configured (TWITCH_CLIENT_SECRET (env w)) = None) as Hc.
  { destruct Hno as [H|H]; [left|right].
    - destruct (TWITCH_CLIENT_ID (env w)) as [[|c s]|]; try done.
      by specialize (H _ eq_refl).
    - destruct (TWITCH_CLIENT_SECRET (env w)) as [[|c s]|]; try done.
      by specialize (H _ eq_refl). }
  rewrite (GET_unfold _ _ _ Hq).
  rewrite (bind_thrown _ _ _ missing_credentials);
    by rewrite (token_step_no_credentials _ _ Hc).
Qed.

Lemma game_search_without_credentials_witness :
  Eff.outcome (GET (world no_credentials 0 twitch_up) (Some (lit "zelda"))
                 (Some old_token))
  = Eff.Thrown missing_credentials.
Proof.
  rewrite (game_search_without_credentials (world no_credentials 0 twitch_up)
             (Some old_token) (Some (lit "zelda")) eq_refl); [reflexivity|].
  left. intros s Hs. discriminate Hs.
Defined.

End GameExtras.

Section TokenSteps.
Import Http GameRoute.

(** What a call of [getTwitchAppToken] can do: nothing to the cache, with
    at most one request; or one successful exchange, whose token it caches
    and returns. *)
Lemma token_step_cases w cache :
  let r := getTwitchAppToken w cache in
  (Eff.state_after r = cache /\
   (Eff.fetched r = [] \/
    exists clientId clientSecret msg,
      Eff.fetched r = [token_request clientId clientSecret] /\
      Eff.outcome r = Eff.Thrown msg))
  \/
  (exists clientId clientSecret resp,
     twitch w (token_request clientId clientSecret) = Eff.Returned resp /\
     ok resp = true /\
     r = {| Eff.state_after :=
              Some {| token := access_token (json resp);
                      expiresAt := (now w + expires_in (json resp) * 1000)%Z |};
            Eff.fetched := [token_request clientId clientSecret];
            Eff.outcome := Eff.Returned (access_token (json resp)) |}).
Proof.
  intros r. subst r. unfold getTwitchAppToken.
  destruct (configured (TWITCH_CLIENT_ID (env w))) as [clientId|];
    [|left; split; [done | by left]].
  destruct (configured (TWITCH_CLIENT_SECRET (env w))) as [clientSecret|];
    [|left; split; [done | by left]].
  rewrite bind_get.
  destruct (still_valid cache (now w)) as [t|]; [left; split; [done | by left]|].
  unfold fetch_fresh_token.
  destruct (twitch w (token_request clientId clientSecret)) as [resp|msg] eqn:Hresp.
  - rewrite (bind_fetch_returned _ _ _ _ _ Hresp).
    destruct (ok resp) eqn:Hok; cbn [negb].
    + right. by exists clientId, clientSecret, resp.
    + left. split; [done|]. right. by eexists clientId, clientSecret, _.
  - rewrite (bind_fetch_thrown _ _ _ _ _ Hresp).
    left. split; [done|]. right. by exists clientId, clientSecret, msg.
Qed.

Lemma token_step_fetched w cache :
  Eff.fetched (getTwitchAppToken w cache) = [] \/
  exists clientId clientSecret,
    Eff.fetched (getTwitchAppToken w cache) = [token_request clientId clientSecret].
Proof.
  destruct (token_step_cases w cache) as [[_ [H|(i & s & m & H & _)]]|(i & s & resp & _ & _ & H)].
  - by left.
  - right. by exists i, s.
  - right. exists i, s. by rewrite H.
Qed.

Lemma GET_blank w q0 cache :
  blank q0 = true ->
  GET w q0 cache =
    {| Eff.state_after := cache; Eff.fetched := [];
       Eff.outcome := Eff.Returned (json_response []) |}.
Proof. intros Hq%query_falsy_iff. unfold GET. by rewrite Hq. Qed.

Lemma GET_state w q0 cache :
  blank q0 = false ->
  Eff.state_after (GET w q0 cache) = Eff.state_after (getTwitchAppToken w cache).
Proof.
  intros Hq. rewrite (GET_unfold _ _ _ Hq).
  destruct (Eff.outcome (getTwitchAppToken w cache)) as [tok|msg] eqn:Ho.
  - rewrite (bind_returned _ _ _ _ Ho). cbn. apply search_step_state.
  - by rewrite (bind_thrown _ _ _ _ Ho).
Qed.

Lemma GET_fetched w q0 cache :
  blank q0 = false ->
  Eff.fetched (GET w q0 cache) = Eff.fetched (getTwitchAppToken w cache) \/
  exists tok,
    Eff.outcome (getTwitchAppToken w cache) = Eff.Returned tok /\
    Eff.fetched (GET w q0 cache) =
      Eff.fetched (getTwitchAppToken w cache)
      ++ [igdb_request (default [] (TWITCH_CLIENT_ID (env w))) tok
            (apicalypse_body (trim (or_str q0 [])))].
Proof.
  intros Hq. rewrite (GET_unfold _ _ _ Hq).
  destruct (Eff.outcome (getTwitchAppToken w cache)) as [tok|msg] eqn:Ho.
  - right. exists tok. split; [done|].
    rewrite (bind_returned _ _ _ _ Ho). cbn [Eff.fetched].
    by rewrite search_step_fetched.
  - left. by rewrite (bind_thrown _ _ _ _ Ho).
Qed.

End TokenSteps.

Section GameCacheExtras.
Import Http GameRoute.

(** X5: a search made with a token in the cache that expires more than 60
    seconds later sends exactly one request upstream, the one to the games
    database; that request carries the configured client identifier and
    the cached token as bearer, and the cache is left as it was. *)
Theorem game_search_with_cached_token
    (w : World) (q0 : option str) (t : CachedToken) (clientId clientSecret : str) :
  blank q0 = false ->
  has_credentials (env w) clientId clientSecret ->
  (now w + 60000 < expiresAt t)%Z ->
  let r := GET w q0 (Some t) in
  Eff.fetched r =
    [ {| url := {| base := lit "https://api.igdb.com/v4/games"; searchParams := [] |};
         method := lit "POST";
         headers := [(lit "Client-ID", clientId);
                     (lit "Authorization", lit "Bearer " ++ token t);
                     (lit "Accept", lit "application/json");
                     (lit "Content-Type", lit "text/plain")];
         body := PlainText (apicalypse_body (trim (or_str q0 []))) |} ] /\
  Eff.state_after r = Some t.
Proof.
  intros Hq Hc Ht r. subst r.
  pose proof (token_step_reuse w (Some t) _ _ t Hc
                (still_valid_Some _ _ _ eq_refl Ht)) as Hstep.
  rewrite (GET_unfold _ _ _ Hq).
  rewrite (bind_returned _ _ _ (token t)) by (by rewrite Hstep).
  rewrite Hstep. cbn [Eff.fetched Eff.state_after app].
  rewrite search_step_fetched, search_step_state.
  destruct Hc as (Hid & _). by rewrite Hid.
Qed.

Lemma game_search_with_cached_token_witness :
  Eff.state_after (GET (world credentials 0 twitch_down) (Some (lit "zelda"))
                     (Some old_token)) = Some old_token /\
  length (Eff.fetched (GET (world credentials 0 twitch_down) (Some (lit "zelda"))
                         (Some old_token))) = 1.
Proof.
  destruct (game_search_with_cached_token (world credentials 0 twitch_down)
              (Some (lit "zelda")) old_token (lit "id") (lit "secret") eq_refl)
    as [Hf Hs].
  - repeat split; discriminate.
  - simpl. lia.
  - split; [exact Hs|]. by rewrite Hf.
Defined.

(** X6: two searches in a row.  When the first one finds no usable token
    and its exchange succeeds, a second search made, with credentials
    configured, more than 60 seconds before the expiry of that token makes
    no exchange: it sends the games database one request, with the token of
    the first search as bearer, and leaves that token cached. *)
Theorem game_second_search_reuses_token
    (w1 w2 : World) (cache : Cache) (q1 q2 : option str)
    (id1 secret1 id2 secret2 : str) (resp : Upstream TokenJson) :
  blank q1 = false -> blank q2 = false ->
  has_credentials (env w1) id1 secret1 ->
  has_credentials (env w2) id2 secret2 ->
  (forall t, cache = Some t -> (expiresAt t <= now w1 + 60000)%Z) ->
  twitch w1 (token_request id1 secret1) = Eff.Returned resp ->
  ok resp = true ->
  (now w2 + 60000 < now w1 + expires_in (json resp) * 1000)%Z ->
  let r1 := GET w1 q1 cache in
  let r2 := GET w2 q2 (Eff.state_after r1) in
  Eff.fetched r2 =
    [igdb_request id2 (access_token (json resp))
       (apicalypse_body (trim (or_str q2 [])))] /\
  Eff.state_after r2 = Eff.state_after r1 /\
  Eff.state_after r1 =
    Some {| token := access_token (json resp);
            expiresAt := (now w1 + expires_in (json resp) * 1000)%Z |}.
Proof.
  intros Hq1 Hq2 Hc1 Hc2 Hstale Hresp Hok Hsoon r1 r2.
  pose proof (token_step_refresh w1 cache _ _ resp Hc1
                (still_valid_None _ _ Hstale) Hresp Hok) as Hstep1.
  assert (Eff.state_after r1 =
            Some {| token := access_token (json resp);
                    expiresAt := (now w1 + expires_in (json resp) * 1000)%Z |})
    as Hs1.
  { subst r1. rewrite (GET_unfold _ _ _ Hq1).
    rewrite (bind_returned _ _ _ (access_token (json resp))) by (by rewrite Hstep1).
    cbn [Eff.state_after]. rewrite search_step_state. by rewrite Hstep1. }
  subst r2. rewrite Hs1.
  set (fresh := {| token := access_token (json resp);
                   expiresAt := (now w1 + expires_in (json resp) * 1000)%Z |}).
  pose proof (token_step_reuse w2 (Some fresh) _ _ fresh Hc2
                (still_valid_Some (Some fresh) (now w2) fresh eq_refl Hsoon))
    as Hstep2.
  rewrite (GET_unfold _ _ _ Hq2).
  rewrite (bind_returned _ _ _ (access_token (json resp))) by (by rewrite Hstep2).
  rewrite Hstep2. cbn [Eff.fetched Eff.state_after app].
  rewrite search_step_fetched, search_step_state.
  destruct Hc2 as (Hid & _). by rewrite Hid.
Qed.

Lemma game_second_search_reuses_token_witness :
  let r1 := GET (world credentials 0 twitch_up) (Some (lit "zelda")) None in
  let r2 := GET (world credentials 3000000 twitch_down) (Some (lit "mario"))
              (Eff.state_after r1) in
  Eff.fetched r2 =
    [igdb_request (lit "id") (lit "fresh") (apicalypse_body (lit "mario"))].
Proof.
  destruct (game_second_search_reuses_token
              (world credentials 0 twitch_up) (world credentials 3000000 twitch_down)
              None (Some (lit "zelda")) (Some (lit "mario"))
              (lit "id") (lit "secret") (lit "id") (lit "secret")
              {| ok := true; text := [];
                 json := {| access_token := lit "fresh"; expires_in := 3600 |} |}
              eq_refl eq_refl) as [Hf _]; done.
Defined.

(** X7: a search never empties or corrupts the token cache: after any
    call the cache is what it was, unless the call made a successful
    exchange, in which case it holds that exchange's token with expiry
    [now + expires_in * 1000]. *)
Theorem game_cache_only_refreshed (w : World) (q0 : option str) (cache : Cache) :
  let r := GET w q0 cache in
  Eff.state_after r = cache \/
  exists clientId clientSecret resp,
    token_request clientId clientSecret ∈ Eff.fetched r /\
    twitch w (token_request clientId clientSecret) = Eff.Returned resp /\
    ok resp = true /\
    Eff.state_after r =
      Some {| token := access_token (json resp);
              expiresAt := (now w + expires_in (json resp) * 1000)%Z |}.
Proof.
  intros r. subst r.
  destruct (blank q0) eqn:Hq; [left; by rewrite GET_blank|].
  rewrite (GET_state _ _ _ Hq).
  destruct (token_step_cases w cache) as [[Hc _]|(i & s & resp & Hresp & Hok & Hr)];
    [by left|].
  right. exists i, s, resp.
  destruct (GET_fetched w q0 cache Hq) as [Hf|(tok & _ & Hf)];
    rewrite Hf, Hr; cbn [Eff.fetched Eff.state_after];
    (split; [|done]).
  - left.
  - left.
Qed.

End GameCacheExtras.

Section RequestExtras.
Import Http.

(** X8: a game search sends at most two requests upstream, all of them
    POST requests to the token endpoint or to the games database, whatever
    the configuration, the cache and the upstream's answers are. *)
Theorem game_requests_bounded
    (w : GameRoute.World) (q0 : option str) (cache : GameRoute.Cache) :
  let sent := Eff.fetched (GameRoute.GET w q0 cache) in
  length sent <= 2 /\
  Forall (fun req =>
            method req = lit "POST" /\
            (base (url req) = lit "https://id.twitch.tv/oauth2/token" \/
             base (url req) = lit "https://api.igdb.com/v4/games")) sent.
Proof.
  intros sent. subst sent.
  destruct (blank q0) eqn:Hq.
  { rewrite GET_blank by done. cbn. split; [lia | constructor]. }
  destruct (token_step_fetched w cache) as [Ht|(i & s & Ht)];
    destruct (GET_fetched w q0 cache Hq) as [Hf|(tok & _ & Hf)];
    rewrite Hf, Ht; cbn [app length]; (split; [lia|]);
    repeat constructor; by (left + right).
Qed.

(** X9: an anime search with a non-blank query sends exactly one request
    upstream, whatever the upstream does with it: a POST to the media
    database whose search variable is the query without its surrounding
    white space, which is never empty. *)
Theorem anime_request_once
    (anilist : Request -> Eff.exc (Upstream AnimeRoute.AniListResponse))
    (q0 : option str) :
  blank q0 = false ->
  Eff.fetched (AnimeRoute.GET anilist q0 tt) =
    [ {| url := {| base := lit "https://graphql.anilist.co"; searchParams := [] |};
         method := lit "POST";
         headers := [(lit "Content-Type", lit "application/json");
                     (lit "Accept", lit "application/json")];
         body := JsonGraphQL AnimeRoute.query (trim (or_str q0 [])) |} ] /\
  trim (or_str q0 []) <> [] /\
  trim (trim (or_str q0 [])) = trim (or_str q0 []).
Proof.
  intros Hq. pose proof Hq as Ht%query_truthy_iff.
  split; [|split].
  - unfold AnimeRoute.GET. rewrite Ht. cbn [negb].
    apply fetched_bind_fetch. intros resp. by destruct (ok resp).
  - by destruct (trim (or_str q0 [])).
  - apply trim_idempotent.
Qed.

Lemma anime_request_once_witness :
  length (Eff.fetched (AnimeRoute.GET anilist_down (Some (lit " one piece ")) tt)) = 1.
Proof.
  destruct (anime_request_once anilist_down (Some (lit " one piece ")) eq_refl)
    as [Hf _].
  by rewrite Hf.
Defined.

(** X10: when the media database answers with success but its JSON has no
    [data], no [Page] or no [media], the search is answered with the empty
    result list and status 200. *)
Theorem anime_missing_media_no_results
    (anilist : Request -> Eff.exc (Upstream AnimeRoute.AniListResponse))
    (q0 : option str) (resp : Upstream AnimeRoute.AniListResponse) :
  blank q0 = false ->
  anilist (AnimeRoute.anilist_request (trim (or_str q0 []))) = Eff.Returned resp ->
  ok resp = true ->
  (AnimeRoute.data (json resp) ≫= AnimeRoute.data_Page) ≫= AnimeRoute.media = None ->
  Eff.outcome (AnimeRoute.GET anilist q0 tt) =
    Eff.Returned {| status := 200;
                    resp_headers := [(lit "content-type", lit "application/json")];
                    resp_body := JsonResults [] |}.
Proof.
  intros Hq%query_truthy_iff Hresp Hok Hnone.
  unfold AnimeRoute.GET. rewrite Hq. cbn [negb].
  rewrite (bind_fetch_returned _ _ _ _ _ Hresp), Hok.
  cbn [negb Eff.ret Eff.outcome]. unfold AnimeRoute.results_of. by rewrite Hnone.
Qed.

Lemma anime_missing_media_no_results_witness :
  Eff.outcome
    (AnimeRoute.GET (anilist_answers {| AnimeRoute.data := None |})
       (Some (lit "naruto")) tt)
  = Eff.Returned (json_response []).
Proof.
  apply (anime_missing_media_no_results
           (anilist_answers {| AnimeRoute.data := None |}) (Some (lit "naruto"))
           {| ok := true; text := []; json := {| AnimeRoute.data := None |} |});
    reflexivity.
Defined.

(** X11: no result of either proxy has an empty image URL, and no result
    of the anime proxy has an empty title; neither proxy returns more
    results than the upstream gave items. *)
Theorem results_have_images :
  (forall json r, r ∈ AnimeRoute.results_of json ->
     imageUrl r <> [] /\ title r <> []) /\
  (forall games r, r ∈ GameRoute.results_of games -> imageUrl r <> []) /\
  (forall json, length (AnimeRoute.results_of json) <= length (media_of json)) /\
  (forall games, length (GameRoute.results_of games) <= length games).
Proof.
  split; [|split; [|split]].
  - intros json r. unfold AnimeRoute.results_of.
    destruct (_ ≫= AnimeRoute.media) as [ms|]; [|by intros ?%elem_of_nil].
    rewrite list_elem_of_In, filter_In.
    intros [(m & <- & _)%in_map_iff Hi]. split.
    + by destruct (imageUrl (AnimeRoute.to_result m)).
    + unfold AnimeRoute.to_result. cbn [title]. rewrite or_chain3.
      by destruct (first_nonempty _) as [[|c s]|] eqn:Hf;
        [apply first_nonempty_truthy in Hf| |].
  - intros games r. unfold GameRoute.results_of.
    rewrite list_elem_of_In, filter_In. intros [_ Hi].
    by destruct (imageUrl r).
  - intros json. unfold AnimeRoute.results_of, media_of.
    destruct (_ ≫= AnimeRoute.media) as [ms|]; cbn; [|lia].
    etransitivity; [apply filter_length_le|]. by rewrite length_map.
  - intros games. unfold GameRoute.results_of.
    etransitivity; [apply filter_length_le|]. by rewrite length_map.
Qed.

Lemma results_have_images_witness :
  imageUrl (AnimeRoute.to_result naruto) <> [].
Proof.
  destruct results_have_images as [Ha _].
  apply (Ha (one_item naruto) (AnimeRoute.to_result naruto)).
  vm_compute. left.
Defined.

End RequestExtras.

(** ** The chart editor, continued *)

Section EditorMore.
Import Editor EditorView.

Lemma array_set_twice (a : array) i x y :
  array_set (array_set a i x) i y = array_set a i y.
Proof.
  unfold array_set. destruct (decide (i < length a)) as [Hi|Hi].
  - rewrite decide_True by (by rewrite length_insert).
    apply list_insert_insert_eq.
  - rewrite decide_True by (rewrite !length_app, length_replicate; simpl; lia).
    rewrite insert_app_r_alt by lia.
    rewrite insert_app_r_alt by (rewrite length_replicate; lia).
    rewrite length_replicate. by rewrite Nat.sub_diag.
Qed.

Lemma labelled_updateSelected_of i p st :
  (patch_label p <> Some None) ->
  labelled st -> labelled (updateSelected_of (Some i) p st).
Proof.
  intros Hp Hl j Hj. cbn.
  destruct (decide (j = i)) as [->|Hne].
  - rewrite array_get_set_eq. destruct (Hl i Hj) as (c & l & Hc & Hcl).
    unfold spread. rewrite Hc. cbn [mbind option_bind].
    destruct (patch_label p) as [[v|]|]; [| done |].
    + by eexists _, v.
    + by eexists _, l.
  - rewrite array_get_set_ne by done. by apply Hl.
Qed.

Lemma selectedIndex_updateSelected_of sel p st :
  selectedIndex (updateSelected_of sel p st) = selectedIndex st.
Proof. by destruct sel. Qed.

Lemma chartTitle_updateSelected_of sel p st :
  chartTitle (updateSelected_of sel p st) = chartTitle st.
Proof. by destruct sel. Qed.

Lemma selectedIndex_pickResult r st :
  selectedIndex (pickResult r st) = selectedIndex st.
Proof.
  unfold pickResult. destruct (selectedIndex st) eqn:Hs; [|done].
  cbn [setIsSearchOpen selectedIndex]. unfold updateSelected.
  by rewrite selectedIndex_updateSelected_of.
Qed.

Lemma chartTitle_pickResult r st :
  chartTitle (pickResult r st) = chartTitle st.
Proof.
  unfold pickResult. destruct (selectedIndex st) eqn:Hs; [|done].
  cbn [setIsSearchOpen chartTitle]. unfold updateSelected.
  by rewrite chartTitle_updateSelected_of.
Qed.

Lemma labelled_initial : labelled initial.
Proof.
  intros j Hj. do 18 (destruct j as [|j]; [by eexists _, _|]). lia.
Qed.

Lemma labelled_handle st ev : labelled st -> labelled (handle ev st).
Proof.
  intros Hl. destruct ev; cbn [handle]; try done.
  - unfold updateSelected. destruct (selectedIndex st); [|done].
    by apply labelled_updateSelected_of.
  - unfold handleUploadImage. destruct (selectedIndex st); [|done].
    by destruct (negb _).
  - unfold reader_onload. by apply labelled_updateSelected_of.
  - unfold clearImage, updateSelected. destruct (selectedIndex st); [|done].
    by apply labelled_updateSelected_of.
  - by destruct (isSearchOpen st).
  - unfold runSearch. by destruct (negb _).
  - by destruct o.
  - unfold pickResult, updateSelected. destruct (selectedIndex st) as [i|]; [|done].
    intros j Hj.
    by apply (labelled_updateSelected_of i
                (image_patch (Some (Http.imageUrl r))) st).
  - unfold exportPng_settled. by destruct rendered.
Qed.

Lemma labelled_reachable st : reachable st -> labelled st.
Proof.
  induction 1 as [|st ev _ IH _]; [apply labelled_initial|].
  by apply labelled_handle.
Qed.

End EditorMore.

Section EditorExtras.
Import Editor EditorView.

(** One case of a frame property: the handler of the event leaves the
    projection at hand alone. *)
Ltac frame_case st :=
  first
    [ done
    | apply selectedIndex_updateSelected_of
    | apply chartTitle_updateSelected_of
    | apply selectedIndex_pickResult
    | apply chartTitle_pickResult
    | by destruct (isSearchOpen st)
    | by (unfold runSearch; destruct (negb _))
    | by (unfold exportPng_settled; match goal with |- context [if ?b then _ else _] => destruct b end)
    | by (unfold handleUploadImage; destruct (selectedIndex st) eqn:?;
          [destruct (negb _)|])
    | by match goal with o : SearchOutcome |- _ => destruct o end ].

(** X12: clearing the image while cell [i] is selected leaves
    [cells[i]] without an image, keeps its label, and leaves every other
    cell, the selection and the modal as they were. *)
Theorem clear_image_frame (st : State) (i : nat) :
  selectedIndex st = Some i ->
  let st' := clearImage st in
  array_get (cells st') i ≫= imageUrl = None /\
  array_get (cells st') i ≫= label = array_get (cells st) i ≫= label /\
  (forall j, j <> i -> array_get (cells st') j = array_get (cells st) j) /\
  selectedIndex st' = Some i /\
  isSearchOpen st' = isSearchOpen st.
Proof.
  intros Hi st'. subst st'. unfold clearImage, updateSelected. rewrite Hi. cbn.
  rewrite array_get_set_eq. cbn. repeat split; try done.
  intros j Hj. by apply array_get_set_ne.
Qed.

Lemma clear_image_frame_witness :
  let st := handle (ClickResult picked) after_select_3 in
  array_get (cells st) 3 ≫= imageUrl = Some (lit "http://x/y.jpg") /\
  array_get (cells (clearImage st)) 3 ≫= imageUrl = None.
Proof.
  split; [reflexivity|].
  by destruct (clear_image_frame (handle (ClickResult picked) after_select_3) 3 eq_refl)
    as [Hc _].
Defined.

(** X13: while no cell is selected, editing the label, clearing the image,
    choosing a file to upload and picking a search result change nothing
    at all: no cell changes, no reader starts, no alert is shown even for a
    file that is not an image, and picking a result does not close the
    modal. *)
Theorem no_selection_no_effect
    (st : State) (v : str) (f : File) (r : Http.SearchResult) :
  selectedIndex st = None ->
  handle (EditLabel v) st = st /\
  handle ClickClear st = st /\
  handle (ChooseFile f) st = st /\
  handle (ClickResult r) st = st.
Proof.
  intros Hn. cbn [handle].
  unfold clearImage, updateSelected, handleUploadImage, pickResult.
  by rewrite Hn.
Qed.

Lemma no_selection_no_effect_witness :
  isSearchOpen (handle (ClickResult picked) (handle OpenSearch initial)) = true.
Proof.
  destruct (no_selection_no_effect (handle OpenSearch initial) [] png picked eq_refl)
    as (_ & _ & _ & Hp).
  by rewrite Hp.
Defined.

(** X14: an uploaded image goes to the cell that was selected when the
    file was chosen.  After an image file is chosen while cell [i] is
    selected, a reader is pending for [i]; when it has loaded, even after
    another cell [j] was clicked meanwhile, [cells[i].imageUrl] is the data
    URL, the label of cell [i] and every other cell are as before the
    upload, the selection is [j], and no alert was shown. *)
Theorem upload_lands_in_cell_selected_at_upload
    (st : State) (i j : nat) (f : File) (dataUrl : str) :
  selectedIndex st = Some i ->
  startsWith (type f) (lit "image/") = true ->
  let st1 := handle (ChooseFile f) st in
  let st2 := handle (ClickCell j) st1 in
  let st3 := handle (ReaderLoaded i dataUrl) st2 in
  enabled (ReaderLoaded i dataUrl) st2 /\
  cells st2 = cells st /\
  array_get (cells st3) i ≫= imageUrl = Some dataUrl /\
  array_get (cells st3) i ≫= label = array_get (cells st) i ≫= label /\
  (forall k, k <> i -> array_get (cells st3) k = array_get (cells st) k) /\
  selectedIndex st3 = Some j /\
  alerts st3 = alerts st.
Proof.
  intros Hi Hty st1 st2 st3. subst st3 st2 st1. cbn [handle].
  unfold handleUploadImage. rewrite Hi, Hty. cbn.
  rewrite array_get_set_eq. cbn. split.
  { apply elem_of_app. right. left. }
  repeat split; try done.
  intros k Hk. by apply array_get_set_ne.
Qed.

Lemma upload_lands_in_cell_selected_at_upload_witness :
  let st3 := handle (ReaderLoaded 3 (lit "data:image/png;base64,AAAA"))
               (handle (ClickCell 5) (handle (ChooseFile png) after_select_3)) in
  array_get (cells st3) 3 ≫= imageUrl = Some (lit "data:image/png;base64,AAAA") /\
  array_get (cells st3) 5 ≫= imageUrl = None.
Proof.
  destruct (upload_lands_in_cell_selected_at_upload after_select_3 3 5 png
              (lit "data:image/png;base64,AAAA") eq_refl eq_refl)
    as (_ & _ & Hi & _ & Hk & _).
  split; [exact Hi|]. rewrite (Hk 5) by discriminate. reflexivity.
Defined.

(** X15: when the reader of an uploaded image fails, the cells are as
    they were before the upload and the failure is shown in an alert. *)
Theorem upload_read_failure
    (st : State) (i : nat) (f : File) :
  selectedIndex st = Some i ->
  startsWith (type f) (lit "image/") = true ->
  let st1 := handle (ChooseFile f) st in
  let st2 := handle (ReaderFailed i) st1 in
  enabled (ReaderFailed i) st1 /\
  cells st2 = cells st /\
  selectedIndex st2 = Some i /\
  alerts st2 = alerts st ++ [lit "Failed to read the image file."].
Proof.
  intros Hi Hty st1 st2. subst st2 st1. cbn [handle].
  unfold handleUploadImage. rewrite Hi, Hty. cbn.
  split; [|done]. apply elem_of_app. right. left.
Qed.

Lemma upload_read_failure_witness :
  alerts (handle (ReaderFailed 3) (handle (ChooseFile png) after_select_3))
  = [lit "Failed to read the image file."].
Proof.
  by destruct (upload_read_failure after_select_3 3 png eq_refl eq_refl)
    as (_ & _ & _ & Ha).
Defined.

(** X16: the name of the exported file never contains a backslash, slash,
    colon, star, question mark, double quote, angle bracket or bar, and it
    ends with [.png]; the empty title is exported as [chart.png], and a
    title without such characters keeps its text. *)
Theorem file_name_safe (title : str) :
  Forall (fun c => unsafe_in_file_name c = false) (file_name title) /\
  (exists stem, file_name title = stem ++ lit ".png" /\ length stem <= Nat.max 5 (length title)) /\
  file_name [] = lit "chart.png" /\
  (title <> [] -> Forall (fun c => unsafe_in_file_name c = false) title ->
   file_name title = title ++ lit ".png").
Proof.
  unfold file_name. split; [|split; [|split]].
  - apply Forall_app. split; [|by repeat constructor].
    apply Forall_forall. intros c [_ Hc]%list_elem_of_In%filter_In.
    by destruct (unsafe_in_file_name c).
  - eexists. split; [done|].
    etransitivity; [apply filter_length_le|].
    destruct title; cbn; lia.
  - reflexivity.
  - intros Hne Hsafe. f_equal.
    replace (or_str (Some title) (lit "chart")) with title
      by (by destruct title).
    clear Hne. induction Hsafe as [|d l Hd _ IH]; [done|].
    cbn [List.filter]. by rewrite Hd, IH.
Qed.

Lemma file_name_safe_witness :
  file_name (lit "My chart") = lit "My chart.png".
Proof.
  destruct (file_name_safe (lit "My chart")) as (_ & _ & _ & H).
  apply H; [discriminate|]. repeat constructor.
Defined.

(** X17: which events change what.  The cell array changes only on a label
    edit, a clear, a loaded reader and a picked result; the selection
    changes only on a click on a cell; the chart title changes only when it
    is edited.  In particular a search and an export touch none of them. *)
Theorem selection_and_cells_frame (ev : Event) (st : State) :
  (edits_cells ev = false -> cells (handle ev st) = cells st) /\
  ((forall i, ev <> ClickCell i) -> selectedIndex (handle ev st) = selectedIndex st) /\
  ((forall v, ev <> EditTitle v) -> chartTitle (handle ev st) = chartTitle st).
Proof.
  split; [|split].
  - destruct ev; cbn [edits_cells handle]; try done; intros _; frame_case st.
  - intros Hev. destruct ev; cbn [handle];
      first [ by destruct (Hev i) | frame_case st ].
  - intros Hev. destruct ev; cbn [handle];
      first [ by destruct (Hev v) | frame_case st ].
Qed.

Lemma selection_and_cells_frame_witness :
  cells (handle ClickExport after_select_3) = cells after_select_3 /\
  selectedIndex (handle ClickSearch after_select_3) = Some 3.
Proof.
  split.
  - by apply (selection_and_cells_frame ClickExport after_select_3).
  - by apply (selection_and_cells_frame ClickSearch after_select_3).
Defined.

End EditorExtras.

Section EditorViewExtras.
Import Editor EditorView.

Lemma trim_query q : trim (or_str (Some q) []) = trim q.
Proof. by destruct q. Qed.

Lemma full_array_shown (a : array) (d : nat -> CellData) :
  (forall i, i < length a -> is_Some (array_get a i)) ->
  List.map (fun i => match array_get a i with Some c => c | None => d i end)
    (seq 0 (length a))
  = omap id a.
Proof.
  revert d. induction a as [|x a IH]; intros d Hfull; [done|].
  cbn [length seq List.map]. rewrite omap_cons.
  destruct (Hfull 0) as [c Hc]; [cbn; lia|].
  rewrite <- seq_shift, List.map_map.
  rewrite <- (IH (fun i => d (S i))).
  - unfold array_get in Hc. cbn in Hc. subst x. done.
  - intros i Hi. apply (Hfull (S i)). cbn. lia.
Qed.

(** X18: in every reachable state the grid shows the 18 cells of the
    array, never the placeholder, and each of them has a label; the side
    panel shows its controls exactly when a cell is selected, and then for
    the cell drawn at the selected position. *)
Theorem reachable_view (st : State) :
  reachable st ->
  labelled st /\
  grid st = omap id (cells st) /\
  length (grid st) = 18 /\
  (forall i, i < rows * cols -> array_get (cells st) i = Some (shown_cell st i)) /\
  (editor_shown st = true <-> selectedIndex st <> None) /\
  (forall i, selectedIndex st = Some i -> selectedCell st = Some (shown_cell st i)).
Proof.
  intros Hr. pose proof (labelled_reachable st Hr) as Hl.
  pose proof (invariant_reachable st Hr) as [Hc Hs _].
  assert (forall i, i < 18 -> array_get (cells st) i = Some (shown_cell st i)) as Hshown.
  { intros i Hi. unfold shown_cell. by destruct (Hl i Hi) as (c & l & -> & _). }
  split; [done|]. split; [|split; [|split; [done|split]]].
  - unfold grid. change (rows * cols) with 18. rewrite <- Hc.
    apply (full_array_shown (cells st)
             (fun i => {| label := Some (lit "Cell " ++ String_of_int (Z.of_nat (i + 1)));
                          imageUrl := None |})).
    intros i Hi. rewrite Hshown by lia. done.
  - unfold grid. by rewrite length_map, length_seq.
  - unfold editor_shown, selectedCell.
    destruct (selectedIndex st) as [i|] eqn:Hi; [|done].
    rewrite (Hshown i (Hs i eq_refl)). done.
  - intros i Hi. unfold selectedCell. rewrite Hi. apply Hshown. by apply Hs.
Qed.

Lemma reachable_view_witness :
  editor_shown after_select_3 = true /\
  label (shown_cell after_select_3 3) = Some (lit "Favorite Protagonist").
Proof.
  assert (reachable after_select_3) as Hr.
  { apply reachable_step; [apply reachable_initial|].
    simpl. unfold rows, cols. lia. }
  destruct (reachable_view after_select_3 Hr) as (_ & _ & _ & _ & Hp & _).
  split; [|reflexivity]. apply Hp. discriminate.
Defined.

(** X19: a search in the modal.  With a blank query text the search button
    does nothing.  Otherwise the search starts by emptying the result list,
    removing the error and raising the loading flag; when it settles the
    flag is lowered, a successful answer replaces the result list (by the
    empty list when the answer has no results) and shows no error, and a
    refused or failed one leaves the list empty and shows the upstream's
    text, or Search failed when there is none.  The cells are not
    touched. *)
Theorem search_round (st : State) (o : SearchOutcome) :
  (blank (Some (query st)) = true -> handle ClickSearch st = st) /\
  (blank (Some (query st)) = false ->
   let st1 := handle ClickSearch st in
   let st2 := handle (SearchSettled o) st1 in
   isSearching st1 = true /\ results st1 = [] /\ searchError st1 = None /\
   isSearching st2 = false /\ cells st2 = cells st /\
   match o with
   | Answered rs => results st2 = default [] rs /\ searchError st2 = None
   | Refused [] => results st2 = [] /\ searchError st2 = Some (lit "Search failed")
   | Refused (c :: msg) => results st2 = [] /\ searchError st2 = Some (c :: msg)
   | Failed None => results st2 = [] /\ searchError st2 = Some (lit "Search failed")
   | Failed (Some msg) => results st2 = [] /\ searchError st2 = Some msg
   end).
Proof.
  cbn [handle]. unfold runSearch. split.
  - intros Hq%query_falsy_iff. rewrite trim_query in Hq. by rewrite Hq.
  - intros Hq%query_truthy_iff. rewrite trim_query in Hq. rewrite Hq. cbn.
    by destruct o as [rs|[|c msg]|[msg|]].
Qed.

Lemma search_round_witness :
  searchError
    (handle (SearchSettled (Refused []))
       (handle ClickSearch (handle (EditQuery (lit "zelda")) initial)))
  = Some (lit "Search failed").
Proof.
  destruct (search_round (handle (EditQuery (lit "zelda")) initial) (Refused []))
    as [_ H].
  by destruct (H eq_refl) as (_ & _ & _ & _ & _ & _ & He).
Defined.

(** X20: on the selected cell the last patch of a key wins and patches of
    different keys do not disturb each other: editing the label twice is
    editing it once with the second text; clearing the image after
    picking a result gives the cells that clearing alone gives; and a
    label edit and a picked result give the same cells in either order. *)
Theorem patches_overwrite
    (st : State) (i : nat) (v1 v2 : str) (r : Http.SearchResult) :
  selectedIndex st = Some i ->
  handle (EditLabel v2) (handle (EditLabel v1) st) = handle (EditLabel v2) st /\
  cells (handle ClickClear (handle (ClickResult r) st)) = cells (handle ClickClear st) /\
  cells (handle (EditLabel v1) (handle (ClickResult r) st))
    = cells (handle (ClickResult r) (handle (EditLabel v1) st)).
Proof.
  intros Hi. cbn [handle]. unfold clearImage, pickResult, updateSelected.
  rewrite Hi. cbn. rewrite Hi. cbn.
  rewrite !array_get_set_eq, !array_set_twice.
  split; [|split; reflexivity].
  unfold set_cells. cbn. by rewrite array_get_set_eq, array_set_twice.
Qed.

Lemma patches_overwrite_witness :
  handle (EditLabel (lit "b")) (handle (EditLabel (lit "a")) after_select_3)
  = handle (EditLabel (lit "b")) after_select_3.
Proof.
  by destruct (patches_overwrite after_select_3 3 (lit "a") (lit "b") picked eq_refl)
    as [H _].
Defined.

End EditorViewExtras.
